(** * OpenAeroStruct: circulation solve and aerostructural transfer

    A shallow embedding of

    - [openaerostruct/aerodynamics/solve_matrix.py] (class [SolveMatrix]) and
    - [transfer.py] (classes [TransferDisplacements] and [TransferLoads]),

    together with the properties of these components.

    Numbers.  The arrays of the source hold IEEE doubles (and, in
    [transfer.py], complex doubles that carry a complex-step perturbation).
    They are modelled by the real numbers [R]: every arithmetic operation of
    the source is the exact operation on [R], so "equal up to rounding" of
    the source reads as equality here.

    Failure.  A Python call either returns or raises; a raising call is
    [Raise] with the name of the exception class. *)

From Stdlib Require Import String.
From Stdlib Require Import ZArith Reals Lra Lia List Arith.
Import ListNotations.

Open Scope R_scope.

(** ** Outcome of a Python call *)

Inductive result (A : Type) : Type :=
| Ok (a : A)
| Raise (exc : string).
Arguments Ok {A} a.
Arguments Raise {A} exc.

Definition bind {A B : Type} (r : result A) (k : A -> result B) : result B :=
  match r with
  | Ok a => k a
  | Raise e => Raise e
  end.

Notation "x <- c1 ;; c2" := (bind c1 (fun x => c2))
  (at level 61, c1 at next level, right associativity).

(** ** NumPy arrays as lists *)

Module Numpy.

Definition vec := list R.
Definition matrix := list (list R).

(** [zeros n]: [numpy.zeros(n)]. *)
Definition zeros (n : nat) : vec := repeat 0 n.

(** Elementwise binary operation on two arrays of the same shape. *)
Fixpoint map2 {A B C : Type} (f : A -> B -> C) (l1 : list A) (l2 : list B) : list C :=
  match l1, l2 with
  | a :: t1, b :: t2 => f a b :: map2 f t1 t2
  | _, _ => []
  end.

Definition vadd (u v : vec) : vec := map2 Rplus u v.
Definition vsub (u v : vec) : vec := map2 Rminus u v.
Definition scal (k : R) (v : vec) : vec := map (Rmult k) v.

(** [dot u v]: inner product of two 1-d arrays. *)
Fixpoint dot (u v : vec) : R :=
  match u, v with
  | a :: u', b :: v' => a * b + dot u' v'
  | _, _ => 0
  end.

(** [mat_vec M x]: [M.dot(x)] for a 2-d [M] and a 1-d [x]. *)
Definition mat_vec (M : matrix) (x : vec) : vec := map (fun row => dot row x) M.

(** [vec_mat x M]: [x.dot(M)], the combination of the rows of [M] with the
    weights [x]; [n] is the number of columns of [M]. *)
Fixpoint vec_mat (n : nat) (x : vec) (M : matrix) : vec :=
  match x, M with
  | a :: x', row :: M' => vadd (scal a row) (vec_mat n x' M')
  | _, _ => zeros n
  end.

(** First column and remaining columns of a 2-d array. *)
Definition col0 (M : matrix) : vec := map (hd 0) M.
Definition cols_from1 (M : matrix) : matrix := map (@tl R) M.

(** [transpose n M]: [M.T] for [M] with [n] columns. *)
Fixpoint transpose (n : nat) (M : matrix) : matrix :=
  match n with
  | O => []
  | S n' => col0 M :: transpose n' (cols_from1 M)
  end.

(** [mat_mul n A B]: [A.dot(B)] for 2-d arrays, [B] having [n] columns. *)
Definition mat_mul (n : nat) (A B : matrix) : matrix :=
  map (fun row => vec_mat n row B) A.

(** [unit_vec n i]: row [i] of [numpy.eye(n)]. *)
Fixpoint unit_vec (n i : nat) : vec :=
  match n with
  | O => []
  | S n' => match i with
            | O => 1 :: zeros n'
            | S i' => 0 :: unit_vec n' i'
            end
  end.

Definition eye (n : nat) : matrix := map (unit_vec n) (seq 0 n).

(** Shape [(n, m)] of a 2-d array, shape [(n, n)] of a square one. *)
Definition has_shape (n m : nat) (M : matrix) : Prop :=
  length M = n /\ Forall (fun row => length row = m) M.

Definition square (n : nat) (M : matrix) : Prop := has_shape n n M.

Definition squareb (M : matrix) : bool :=
  forallb (fun row => Nat.eqb (length row) (length M)) M.

(** [upd i v l]: the array [l] after [l[i] = v]. *)
Fixpoint upd {A : Type} (i : nat) (v : A) (l : list A) : list A :=
  match l, i with
  | [], _ => []
  | _ :: t, O => v :: t
  | x :: t, S i' => x :: upd i' v t
  end.

(** [swap i j l]: the array [l] after exchanging the entries [i] and [j]. *)
Definition swap {A : Type} (i j : nat) (l : list A) : list A :=
  match nth_error l i, nth_error l j with
  | Some a, Some b => upd j a (upd i b l)
  | _, _ => l
  end.

(** The index that [swap i j] reads at position [k]. *)
Definition swap_index (i j k : nat) : nat :=
  if Nat.eqb k j then i else if Nat.eqb k i then j else k.

(** [sumR l]: the sum of the entries of a 1-d array. *)
Definition sumR (l : vec) : R := fold_right Rplus 0 l.

(** A square array is invertible when it has a two-sided inverse, and
    nonsingular when only the zero vector is sent to zero. *)
Definition invertible (n : nat) (A : matrix) : Prop :=
  exists B : matrix, square n B /\ mat_mul n B A = eye n /\ mat_mul n A B = eye n.

Definition nonsingular (n : nat) (A : matrix) : Prop :=
  forall x : vec, length x = n -> mat_vec A x = zeros n -> x = zeros n.

End Numpy.

(** ** [scipy.linalg.lu_factor] and [scipy.linalg.lu_solve]

    [SolveMatrix] calls these two SciPy routines; they are library code, not
    part of the repository.  They wrap LAPACK's [getrf] (LU factorisation
    with partial pivoting, [P A = L U]) and [getrs] (triangular solves with
    the factors, for [A x = b] or for [A^T x = b]).  They are modelled here
    after their documentation, in exact arithmetic, on an [n] by [n] array
    given as the list of its rows.

    A zero pivot is no error for either routine: [lu_factor] warns and
    returns the factors, and [lu_solve] then divides by zero.  In floating
    point the quotient is an infinity or a NaN; here it is the value of the
    total division of [R].  Nothing is raised either way. *)

Module Scipy.
Import Numpy.

(** [idamax l]: index of the first entry of [l] of largest absolute value
    (BLAS [idamax], the pivot search of [getrf]). *)
Fixpoint idamax_from (best : R) (ibest i : nat) (l : vec) : nat :=
  match l with
  | [] => ibest
  | x :: t =>
      if Rlt_dec (Rabs best) (Rabs x)
      then idamax_from x i (S i) t
      else idamax_from best ibest (S i) t
  end.

Definition idamax (l : vec) : nat :=
  match l with
  | [] => O
  | x :: t => idamax_from x 0 1 t
  end.

(** [laswp piv b]: the row interchanges recorded in [piv], applied in order:
    for [i = 0, 1, ...] rows [i] and [piv[i]] are exchanged.  [laswp_rev]
    applies them in the reverse order. *)
Definition laswp {A : Type} (piv : list nat) (b : list A) : list A :=
  fold_left (fun acc ip => swap (fst ip) (snd ip) acc)
            (combine (seq 0 (length piv)) piv) b.

Definition laswp_rev {A : Type} (piv : list nat) (b : list A) : list A :=
  fold_right (fun ip acc => swap (fst ip) (snd ip) acc) b
             (combine (seq 0 (length piv)) piv).

(** One elimination step on an array whose leading row [top] holds the
    pivot: the multipliers are the rest of the leading column divided by the
    pivot (LAPACK leaves the column as it is when the pivot is exactly zero),
    and the trailing block is the rest of the array less the multiples of the
    pivot row. *)
Definition multipliers (top : vec) (rest : matrix) : vec :=
  if Req_dec_T (hd 0 top) 0 then col0 rest
  else map (fun c => c / hd 0 top) (col0 rest).

Definition trailing (top : vec) (rest : matrix) : matrix :=
  map2 (fun li row => vsub (tl row) (scal li (tl top))) (multipliers top rest) rest.

(** [getrf n A]: right-looking LU factorisation with partial pivoting of the
    [n] by [n] array [A].  At each step the pivot row is the one whose entry
    in the leading column is largest in absolute value; it is exchanged with
    the leading row, one elimination step is made, and the trailing block is
    factored in turn.  The result is the packed array [lu] (unit lower
    triangle [L] below the diagonal, [U] on and above it) and the pivot
    indices [piv]: row [i] was exchanged with row [piv[i]]. *)
Fixpoint getrf (n : nat) (A : matrix) : matrix * list nat :=
  match n with
  | O => ([], [])
  | S n' =>
      let p := idamax (col0 A) in
      match swap 0 p A with
      | [] => ([], [])
      | top :: rest =>
          let (lu', piv') := getrf n' (trailing top rest) in
          (top :: map2 cons (laswp piv' (multipliers top rest)) lu', p :: map S piv')
      end
  end.

(** Triangular solves on the packed factors ([n] unknowns), by substitution.
    - [trsm_lower_unit]: [L y = b];
    - [trsm_upper]: [U x = y];
    - [trsm_upper_trans]: [U^T y = b];
    - [trsm_lower_unit_trans]: [L^T z = y]. *)
Fixpoint trsm_lower_unit (n : nat) (lu : matrix) (b : vec) : vec :=
  match n, lu, b with
  | S n', _ :: rest, b0 :: bs =>
      b0 :: trsm_lower_unit n' (cols_from1 rest)
              (map2 (fun li bi => bi - li * b0) (col0 rest) bs)
  | _, _, _ => []
  end.

Fixpoint trsm_upper (n : nat) (lu : matrix) (y : vec) : vec :=
  match n, lu, y with
  | S n', top :: rest, y0 :: ys =>
      let xs := trsm_upper n' (cols_from1 rest) ys in
      ((y0 - dot (tl top) xs) / hd 0 top) :: xs
  | _, _, _ => []
  end.

Fixpoint trsm_upper_trans (n : nat) (lu : matrix) (b : vec) : vec :=
  match n, lu, b with
  | S n', top :: rest, b0 :: bs =>
      let y0 := b0 / hd 0 top in
      y0 :: trsm_upper_trans n' (cols_from1 rest)
              (map2 (fun rj bj => bj - rj * y0) (tl top) bs)
  | _, _, _ => []
  end.

Fixpoint trsm_lower_unit_trans (n : nat) (lu : matrix) (y : vec) : vec :=
  match n, lu, y with
  | S n', _ :: rest, y0 :: ys =>
      let zs := trsm_lower_unit_trans n' (cols_from1 rest) ys in
      (y0 - dot (col0 rest) zs) :: zs
  | _, _, _ => []
  end.

(** [getrs trans n lu piv b]: solve [A x = b] ([trans = 0]) or [A^T x = b]
    (any other [trans]) from the factors of [A]. *)
Definition getrs (trans : nat) (n : nat) (lu : matrix) (piv : list nat) (b : vec) : vec :=
  match trans with
  | O => trsm_upper n lu (trsm_lower_unit n lu (laswp piv b))
  | _ => laswp_rev piv (trsm_lower_unit_trans n lu (trsm_upper_trans n lu b))
  end.

(** [lu_factor a]: SciPy rejects an array that is not square with
    [ValueError]; a zero pivot only produces a warning, and the factors are
    returned all the same. *)
Definition lu_factor (a : matrix) : result (matrix * list nat) :=
  if squareb a then Ok (getrf (length a) a) else Raise "ValueError".

(** [lu_solve (lu, piv) b trans]: SciPy rejects a right-hand side whose length
    differs from the order of the factors with [ValueError]. *)
Definition lu_solve (lu_and_piv : matrix * list nat) (b : vec) (trans : nat) : result vec :=
  let (lu, piv) := lu_and_piv in
  if Nat.eqb (length lu) (length b)
  then Ok (getrs trans (length lu) lu piv b)
  else Raise "ValueError".

End Scipy.

(** ** Surfaces

    A lifting surface is described by a dictionary; the methods below read
    its keys ['name'], ['num_x'], ['num_y'] and ['fem_origin'].  [num_x] and
    [num_y] count the points of the mesh along the chord and along the
    span. *)

Module Surface.

Record t : Type := mk {
  name : string;
  num_x : nat;
  num_y : nat;
  fem_origin : R
}.

End Surface.

(** ** [openaerostruct/aerodynamics/solve_matrix.py]

    The inputs ['mtx'] and ['rhs'], the output ['circulations'] and the
    derivative vectors, which the source reads from and writes to
    dictionaries, are the arguments and the results of the methods.  A method
    that assigns an attribute of [self] also returns the new instance. *)

Module SolveMatrix.
Import Numpy Scipy.

(** A sub-Jacobian declared with [rows] and [cols]: entry [k] of the value
    array [val] is the derivative of residual [rows[k]] with respect to input
    [cols[k]]; what is not listed is zero. *)
Record jacobian : Type := mk_jacobian {
  rows : list nat;
  cols : list nat;
  val : vec
}.

(** The [partials] of the component, by key. *)
Record partials : Type := mk_partials {
  circulations_circulations : jacobian;
  circulations_mtx : jacobian;
  circulations_rhs : jacobian
}.

(** The instance: its option [surfaces], and the attributes [system_size]
    (a Python integer, set by [setup]) and [lu] (set by the first
    factorisation; reading it before raises [AttributeError]). *)
Record t : Type := mk {
  surfaces : list Surface.t;
  system_size : Z;
  lu : option (matrix * list nat)
}.

Definition with_lu (self : t) (f : matrix * list nat) : t :=
  {| surfaces := surfaces self; system_size := system_size self; lu := Some f |}.

(** [np.arange], [np.ones], [np.outer] and [flatten].  The arrays of indices
    hold natural numbers.  [np.arange] of a negative number is empty;
    [np.ones] of a negative number raises [ValueError], which the callers
    below check before they use it. *)
Definition arange (n : Z) : list nat := seq 0 (Z.to_nat n).
Definition ones_int (n : Z) : list nat := repeat 1%nat (Z.to_nat n).
Definition ones (n : Z) : vec := repeat 1 (Z.to_nat n).
Definition outer_int (a b : list nat) : list (list nat) :=
  map (fun x => map (fun y => (x * y)%nat) b) a.
Definition outer (a b : vec) : matrix := map (fun x => map (fun y => x * y) b) a.
Definition flatten {A : Type} (M : list (list A)) : list A := concat M.

(** [setup]: the size of the system, [(nx - 1) * (ny - 1)] summed over the
    surfaces, and the sparsity patterns declared for the three sub-Jacobians
    (the one with respect to [rhs] with its constant value [-1]; the values
    of the other two are zero until [linearize] fills them).  A negative size
    makes the declarations raise [ValueError]. *)
Definition setup (self : t) : t * result partials :=
  let system_size :=
    fold_left (fun acc surface =>
                 let nx := Z.of_nat (Surface.num_x surface) in
                 let ny := Z.of_nat (Surface.num_y surface) in
                 (acc + (nx - 1) * (ny - 1))%Z)
              (surfaces self) 0%Z in
  let self := {| surfaces := surfaces self; system_size := system_size; lu := lu self |} in
  if (system_size <? 0)%Z then (self, Raise "ValueError")
  else
    (self,
     Ok {| circulations_circulations :=
             {| rows := flatten (outer_int (arange system_size) (ones_int system_size));
                cols := flatten (outer_int (ones_int system_size) (arange system_size));
                val := zeros (Z.to_nat (system_size * system_size)) |};
           circulations_mtx :=
             {| rows := flatten (outer_int (arange system_size) (ones_int system_size));
                cols := arange (system_size ^ 2);
                val := zeros (Z.to_nat (system_size * system_size)) |};
           circulations_rhs :=
             {| rows := arange system_size;
                cols := arange system_size;
                val := repeat (-1) (Z.to_nat system_size) |} |}).

(** [apply_nonlinear]: the residual [mtx.dot(circulations) - rhs]. *)
Definition apply_nonlinear (mtx : matrix) (rhs circulations : vec) : vec :=
  vsub (mat_vec mtx circulations) rhs.

(** [solve_nonlinear]: factor [mtx], keep the factors in [self.lu], and solve
    for the circulations.  The attribute keeps its new value if the solve
    raises afterwards. *)
Definition solve_nonlinear (self : t) (mtx : matrix) (rhs : vec) : t * result vec :=
  match lu_factor mtx with
  | Raise e => (self, Raise e)
  | Ok f => (with_lu self f, lu_solve f rhs 0)
  end.

(** [linearize]: refresh the factors and fill the values of the two
    sub-Jacobians that depend on the inputs. *)
Definition linearize (self : t) (mtx : matrix) (circulations : vec) (J : partials)
  : t * result partials :=
  let system_size := system_size self in
  match lu_factor mtx with
  | Raise e => (self, Raise e)
  | Ok f =>
      if (system_size <? 0)%Z then (with_lu self f, Raise "ValueError")
      else
      (with_lu self f,
       Ok {| circulations_circulations :=
               {| rows := rows (circulations_circulations J);
                  cols := cols (circulations_circulations J);
                  val := flatten mtx |};
             circulations_mtx :=
               {| rows := rows (circulations_mtx J);
                  cols := cols (circulations_mtx J);
                  val := flatten (outer (ones system_size) circulations) |};
             circulations_rhs := circulations_rhs J |})
  end.

(** [solve_linear]: in mode ['fwd'] the new [d_outputs] solves
    [mtx x = d_residuals]; in any other mode the new [d_residuals] solves
    [mtx^T x = d_outputs].  Both read the factors kept in [self.lu].  The
    result is the pair [(d_outputs, d_residuals)] after the call. *)
Definition solve_linear (self : t) (d_outputs d_residuals : vec) (mode : string)
  : t * result (vec * vec) :=
  match lu self with
  | None => (self, Raise "AttributeError")
  | Some f =>
      if String.eqb mode "fwd"
      then (self, x <- lu_solve f d_residuals 0 ;; Ok (x, d_residuals))
      else (self, x <- lu_solve f d_outputs 1 ;; Ok (d_outputs, x))
  end.

(** The dense reading of a declared sub-Jacobian: the derivative of residual
    [i] with respect to input [j] is the sum of the values listed for
    [(i, j)]. *)
Fixpoint entry_of (rs cs : list nat) (vs : vec) (i j : nat) : R :=
  match rs, cs, vs with
  | r :: rs', c :: cs', v :: vs' =>
      (if (Nat.eqb r i && Nat.eqb c j)%bool then v else 0) + entry_of rs' cs' vs' i j
  | _, _, _ => 0
  end.

Definition entry (J : jacobian) (i j : nat) : R := entry_of (rows J) (cols J) (val J) i j.

End SolveMatrix.

(** ** [transfer.py]: arrays whose last axis has length three

    A mesh is an array of shape [(nx, ny, 3)]: a list of [nx] chordwise rows,
    each a list of [ny] points.  Arrays of shape [(ny, 6)] (displacements,
    loads) are kept as lists of rows, a row being the pair of its columns
    [:3] and [3:].

    The parameters and the output of a component, which the source looks up
    under the name of the surface, are the arguments and the result of its
    [solve_nonlinear].  They have the shapes declared in [__init__]; the
    elementwise operations below are written for operands of equal shape.  Indexing is checked: an index out of range raises
    [IndexError], as in NumPy. *)

Module Mesh.

Record pt : Type := mk_pt { c0 : R; c1 : R; c2 : R }.

Definition row6 : Type := (pt * pt)%type.
Definition array2 : Type := list pt.
Definition array3 : Type := list (list pt).

Definition zero3 : pt := mk_pt 0 0 0.
Definition add3 (p q : pt) : pt := mk_pt (c0 p + c0 q) (c1 p + c1 q) (c2 p + c2 q).
Definition sub3 (p q : pt) : pt := mk_pt (c0 p - c0 q) (c1 p - c1 q) (c2 p - c2 q).
Definition smul3 (k : R) (p : pt) : pt := mk_pt (k * c0 p) (k * c1 p) (k * c2 p).

(** [numpy.cross] of two vectors of length three. *)
Definition cross (r F : pt) : pt :=
  mk_pt (c1 r * c2 F - c2 r * c1 F)
        (c2 r * c0 F - c0 r * c2 F)
        (c0 r * c1 F - c1 r * c0 F).

(** A 3 by 3 array, by rows, and [p.dot(T)] for a row vector [p]. *)
Record mat3 : Type := mk_mat3 { r0 : pt; r1 : pt; r2 : pt }.

Definition dot_mat3 (p : pt) (T : mat3) : pt :=
  add3 (add3 (smul3 (c0 p) (r0 T)) (smul3 (c1 p) (r1 T))) (smul3 (c2 p) (r2 T)).

(** Elementwise operations on arrays of equal shape. *)
Definition add2 (A B : array2) : array2 := Numpy.map2 add3 A B.
Definition sub2 (A B : array2) : array2 := Numpy.map2 sub3 A B.
Definition smul2 (k : R) (A : array2) : array2 := map (smul3 k) A.
Definition add_arr (A B : array3) : array3 := Numpy.map2 add2 A B.
Definition smul_arr (k : R) (A : array3) : array3 := map (smul2 k) A.

(** [numpy.zeros(A.shape)]. *)
Definition zeros_like (A : array3) : array3 := map (map (fun _ => zero3)) A.

(** Indexing: [l[i]] and [l[-1]] raise [IndexError] out of range. *)
Definition index {A : Type} (l : list A) (i : nat) : result A :=
  match nth_error l i with
  | Some a => Ok a
  | None => Raise "IndexError"
  end.

Definition index_last {A : Type} (l : list A) : result A := index l (length l - 1).

(** [l[i] = v], raising [IndexError] out of range. *)
Definition set_index {A : Type} (l : list A) (i : nat) (v : A) : result (list A) :=
  if Nat.ltb i (length l) then Ok (Numpy.upd i v l) else Raise "IndexError".

(** [A[:, j, :]], the points of the spanwise station [j]. *)
Fixpoint station (A : array3) (j : nat) : result array2 :=
  match A with
  | [] => Ok []
  | row :: A' => p <- index row j ;; c <- station A' j ;; Ok (p :: c)
  end.

(** [A[:, j, :] += c]. *)
Definition station_iadd (A : array3) (j : nat) (c : array2) : result array3 :=
  old <- station A j ;;
  Ok (Numpy.map2 (fun row v => Numpy.upd j v row) A (add2 old c)).

(** [A[:, j, 0] += d], [A[:, j, 1] += d] and [A[:, j, 2] += d]: one column of
    the points of station [j] is updated. *)
Definition station_update (A : array3) (j : nat) (f : pt -> pt) : result array3 :=
  old <- station A j ;;
  Ok (Numpy.map2 (fun row v => Numpy.upd j v row) A (map f old)).

Definition station_iadd_c0 (A : array3) (j : nat) (d : R) : result array3 :=
  station_update A j (fun p => mk_pt (c0 p + d) (c1 p) (c2 p)).
Definition station_iadd_c1 (A : array3) (j : nat) (d : R) : result array3 :=
  station_update A j (fun p => mk_pt (c0 p) (c1 p + d) (c2 p)).
Definition station_iadd_c2 (A : array3) (j : nat) (d : R) : result array3 :=
  station_update A j (fun p => mk_pt (c0 p) (c1 p) (c2 p + d)).

(** Slices along the first two axes: [A[:-1]], [A[1:]], [A[:, :-1]] and
    [A[:, 1:]]. *)
Definition but_last {A : Type} (l : list A) : list A := removelast l.
Definition from1 {A : Type} (l : list A) : list A := tl l.
Definition cols_but_last (A : array3) : array3 := map (@removelast pt) A.
Definition cols_from1 (A : array3) : array3 := map (@tl pt) A.

(** [numpy.sum(A, axis=0)] for [A] of shape [(k, m, 3)]: the sum of the [k]
    rows, starting from zeros of shape [(m, 3)]. *)
Definition sum_axis0 (m : nat) (A : array3) : array2 :=
  fold_left add2 A (repeat zero3 m).

(** The sum of an array of shape [(k, 3)] over its rows. *)
Definition total (A : array2) : pt := fold_right add3 zero3 A.

(** [for ind in xrange(n)] over a state that the body may fail to update. *)
Fixpoint for_in {S : Type} (l : list nat) (body : nat -> S -> result S) (s : S) : result S :=
  match l with
  | [] => Ok s
  | i :: l' => s' <- body i s ;; for_in l' body s'
  end.

Definition xrange (n : nat) : list nat := seq 0 n.

Definition has_shape (nx ny : nat) (A : array3) : Prop :=
  length A = nx /\ Forall (fun row => length row = ny) A.

End Mesh.

Module TransferDisplacements.
Import Mesh.

(** The instance, as [__init__] builds it from the surface.  [__init__] also
    declares the parameters [mesh] of shape [(nx, ny, 3)] and [disp] of shape
    [(ny, 6)] and the output [def_mesh] of shape [(nx, ny, 3)].  The
    attribute [mesh] that it copies from the surface is read by no method and
    is left out. *)
Record t : Type := mk {
  surface : Surface.t;
  ny : nat;
  nx : nat;
  n : nat;
  fem_origin : R
}.

Definition init (surface : Surface.t) : t :=
  {| surface := surface;
     ny := Surface.num_y surface;
     nx := Surface.num_x surface;
     n := (Surface.num_x surface * Surface.num_y surface)%nat;
     fem_origin := Surface.fem_origin surface |}.

(** The transform of one station: [-2 I] plus the three planar rotation
    blocks, added in the (y, z), (x, z) and (x, y) positions. *)
Definition minus_two_eye : mat3 :=
  mk_mat3 (mk_pt (-2 * 1) (-2 * 0) (-2 * 0))
          (mk_pt (-2 * 0) (-2 * 1) (-2 * 0))
          (mk_pt (-2 * 0) (-2 * 0) (-2 * 1)).

(** [T[1:, 1:] += [[a, b], [c, d]]] *)
Definition iadd_block_1_1 (T : mat3) (a b c d : R) : mat3 :=
  mk_mat3 (r0 T)
          (mk_pt (c0 (r1 T)) (c1 (r1 T) + a) (c2 (r1 T) + b))
          (mk_pt (c0 (r2 T)) (c1 (r2 T) + c) (c2 (r2 T) + d)).

(** [T[::2, ::2] += [[a, b], [c, d]]] *)
Definition iadd_block_stride2 (T : mat3) (a b c d : R) : mat3 :=
  mk_mat3 (mk_pt (c0 (r0 T) + a) (c1 (r0 T)) (c2 (r0 T) + b))
          (r1 T)
          (mk_pt (c0 (r2 T) + c) (c1 (r2 T)) (c2 (r2 T) + d)).

(** [T[:2, :2] += [[a, b], [c, d]]] *)
Definition iadd_block_0_0 (T : mat3) (a b c d : R) : mat3 :=
  mk_mat3 (mk_pt (c0 (r0 T) + a) (c1 (r0 T) + b) (c2 (r0 T)))
          (mk_pt (c0 (r1 T) + c) (c1 (r1 T) + d) (c2 (r1 T)))
          (r2 T).

Definition transform (rx ry rz : R) : mat3 :=
  let T := minus_two_eye in
  let T := iadd_block_1_1 T (cos rx) (- sin rx) (sin rx) (cos rx) in
  let T := iadd_block_stride2 T (cos ry) (sin ry) (- sin ry) (cos ry) in
  let T := iadd_block_0_0 T (cos rz) (- sin rz) (sin rz) (cos rz) in
  T.

(** [solve_nonlinear]: the deformed mesh from the mesh and the displacements
    of the [ny] stations. *)
Definition solve_nonlinear (self : t) (mesh : array3) (disp : list row6) : result array3 :=
  let w := Surface.fem_origin (surface self) in
  first <- index mesh 0 ;;
  last <- index_last mesh ;;
  let ref_curve := add2 (smul2 (1 - w) first) (smul2 w last) in
  Smesh <- for_in (xrange (nx self))
             (fun ind Smesh =>
                row <- index mesh ind ;;
                set_index Smesh ind (sub2 row ref_curve))
             (zeros_like mesh) ;;
  def_mesh <- for_in (xrange (ny self))
             (fun ind def_mesh =>
                d <- index disp ind ;;
                let '(mk_pt dx dy dz, mk_pt rx ry rz) := d in
                let T := transform rx ry rz in
                S <- station Smesh ind ;;
                def_mesh <- station_iadd def_mesh ind (map (fun p => dot_mat3 p T) S) ;;
                def_mesh <- station_iadd_c0 def_mesh ind dx ;;
                def_mesh <- station_iadd_c1 def_mesh ind dy ;;
                station_iadd_c2 def_mesh ind dz)
             (zeros_like mesh) ;;
  Ok (add_arr def_mesh mesh).

End TransferDisplacements.

Module TransferLoads.
Import Mesh.

(** The instance, as [__init__] builds it from the surface.  [__init__] also
    declares the parameters [def_mesh] of shape [(nx, ny, 3)] and
    [sec_forces] of shape [(nx - 1, ny - 1, 3)] and the output [loads] of
    shape [(ny, 6)].  The attribute [mesh] that it copies from the surface is
    read by no method and is left out. *)
Record t : Type := mk {
  surface : Surface.t;
  ny : nat;
  nx : nat;
  n : nat;
  fem_origin : R
}.

Definition init (surface : Surface.t) : t :=
  {| surface := surface;
     ny := Surface.num_y surface;
     nx := Surface.num_x surface;
     n := (Surface.num_x surface * Surface.num_y surface)%nat;
     fem_origin := Surface.fem_origin surface |}.

(** The points at chordwise fraction [w] of every panel, midway between its
    two spanwise edges:
    [0.5*(1-w)*mesh[:-1,:-1] + 0.5*w*mesh[1:,:-1] + 0.5*(1-w)*mesh[:-1,1:] + 0.5*w*mesh[1:,1:]]. *)
Definition panel_pts (w : R) (mesh : array3) : array3 :=
  add_arr
    (add_arr
       (add_arr (smul_arr (0.5 * (1 - w)) (but_last (cols_but_last mesh)))
                (smul_arr (0.5 * w) (from1 (cols_but_last mesh))))
       (smul_arr (0.5 * (1 - w)) (but_last (cols_from1 mesh))))
    (smul_arr (0.5 * w) (from1 (cols_from1 mesh))).

(** [numpy.zeros((ny - 1, 3))] and [numpy.zeros((ny, 6))]; a negative
    dimension raises [ValueError]. *)
Definition zeros_rows (ny : nat) : result array2 :=
  if Nat.eqb ny 0 then Raise "ValueError" else Ok (repeat zero3 (ny - 1)).

Definition zeros_loads (ny : nat) : list row6 := repeat (zero3, zero3) ny.

(** [loads[:-1, :3] += v], [loads[1:, :3] += v], [loads[:-1, 3:] += v] and
    [loads[1:, 3:] += v], for [v] with one row less than [loads]. *)
Definition add_force (row : row6) (v : pt) : row6 := (add3 (fst row) v, snd row).
Definition add_moment (row : row6) (v : pt) : row6 := (fst row, add3 (snd row) v).

Definition iadd_but_last (g : row6 -> pt -> row6) (loads : list row6) (v : array2) : list row6 :=
  Numpy.map2 g (but_last loads) v ++ skipn (length loads - 1) loads.

Definition iadd_from1 (g : row6 -> pt -> row6) (loads : list row6) (v : array2) : list row6 :=
  firstn 1 loads ++ Numpy.map2 g (from1 loads) v.

(** [solve_nonlinear]: the loads on the [ny] nodes from the deformed mesh and
    the sectional forces of the panels. *)
Definition solve_nonlinear (self : t) (mesh : array3) (sec_forces : array3) : result (list row6) :=
  let sec_forces := sum_axis0 (ny self - 1) sec_forces in
  let w := 0.25 in
  let a_pts := panel_pts w mesh in
  let w := fem_origin self in
  let s_pts := panel_pts w mesh in
  moment <- zeros_rows (ny self) ;;
  moment <- for_in (xrange (ny self - 1))
              (fun ind moment =>
                 a_row <- index a_pts 0 ;;
                 a <- index a_row ind ;;
                 s_row <- index s_pts 0 ;;
                 s <- index s_row ind ;;
                 let r := sub3 a s in
                 F <- index sec_forces ind ;;
                 set_index moment ind (cross r F))
              moment ;;
  let loads := zeros_loads (ny self) in
  let loads := iadd_but_last add_force loads (smul2 0.5 sec_forces) in
  let loads := iadd_from1 add_force loads (smul2 0.5 sec_forces) in
  let loads := iadd_but_last add_moment loads (smul2 0.5 moment) in
  let loads := iadd_from1 add_moment loads (smul2 0.5 moment) in
  Ok loads.

End TransferLoads.

(** ** The results of the transfer components, written without loops

    These are not part of the source: they name what the loops of the two
    [solve_nonlinear] methods compute, and the properties below show that the
    methods return them. *)

Module ClosedForms.
Import Numpy Mesh.

(** What one round of the station loop adds to a point [p] of the deformed
    mesh, from the local coordinates [s] of the point and the displacement
    [d] of the station. *)
Definition station_step (d : row6) (s p : pt) : pt :=
  let '(mk_pt dx dy dz, mk_pt rx ry rz) := d in
  let p := add3 p (dot_mat3 s (TransferDisplacements.transform rx ry rz)) in
  let p := mk_pt (c0 p + dx) (c1 p) (c2 p) in
  let p := mk_pt (c0 p) (c1 p + dy) (c2 p) in
  mk_pt (c0 p) (c1 p) (c2 p + dz).

(** The deformed mesh, written without loops. *)
Definition def_mesh_of (w : R) (mesh : array3) (disp : list row6) : array3 :=
  let ref_curve := add2 (smul2 (1 - w) (hd [] mesh)) (smul2 w (last mesh [])) in
  add_arr (map (fun row => map2 (fun s d => station_step d s zero3) (sub2 row ref_curve) disp)
               mesh)
          mesh.

(** The points at chordwise fraction [w] of the first row of panels: the first
    row of [TransferLoads.panel_pts], from the first two rows of the mesh. *)
Definition panel_row (w : R) (row0 row1 : array2) : array2 :=
  add2 (add2 (add2 (smul2 (0.5 * (1 - w)) (removelast row0))
                   (smul2 (0.5 * w) (removelast row1)))
             (smul2 (0.5 * (1 - w)) (tl row0)))
       (smul2 (0.5 * w) (tl row1)).

(** The moments of the panels, and the loads, written without loops. *)
Definition moment_of (a_row s_row sec_forces : array2) : array2 :=
  map2 cross (map2 sub3 a_row s_row) sec_forces.

Definition loads_of (ny : nat) (sec_forces moment : array2) : list row6 :=
  TransferLoads.iadd_from1 TransferLoads.add_moment
    (TransferLoads.iadd_but_last TransferLoads.add_moment
       (TransferLoads.iadd_from1 TransferLoads.add_force
          (TransferLoads.iadd_but_last TransferLoads.add_force (TransferLoads.zeros_loads ny) (smul2 0.5 sec_forces))
          (smul2 0.5 sec_forces))
       (smul2 0.5 moment))
    (smul2 0.5 moment).

End ClosedForms.

(** ** Concrete inputs *)

Module Scenario.
Import Numpy Mesh.

(** A surface with [nx = 2], [ny = 3] (one chordwise panel, two spanwise)
    and [fem_origin = 0.25]; its flat mesh in the XY plane; a unit force
    [(0, 0, 1)] on both panels. *)
Definition wing : Surface.t := Surface.mk "wing" 2 3 0.25.
Definition flat_mesh : array3 :=
  [[mk_pt 0 0 0; mk_pt 0 1 0; mk_pt 0 2 0];
   [mk_pt 1 0 0; mk_pt 1 1 0; mk_pt 1 2 0]].
Definition unit_forces : array3 := [[mk_pt 0 0 1; mk_pt 0 0 1]].

(** The same surface with a [fem_origin] outside [[0, 1]]. *)
Definition wing_out_of_range : Surface.t := Surface.mk "wing" 2 3 2.

(** A surface with three chordwise rows, and two meshes for it that differ
    in the third row only. *)
Definition wing3 : Surface.t := Surface.mk "wing" 3 3 0.35.
Definition tall_mesh1 : array3 :=
  (flat_mesh ++ [[mk_pt 2 0 0; mk_pt 2 1 0; mk_pt 2 2 0]])%list.
Definition tall_mesh2 : array3 :=
  (flat_mesh ++ [[mk_pt 3 0 5; mk_pt 3 1 6; mk_pt 3 2 7]])%list.

(** The solver for [wing] (a system of size two), an invertible array with
    its inverse, and a singular array with a zero row. *)
Definition solver0 : SolveMatrix.t :=
  {| SolveMatrix.surfaces := [wing]; SolveMatrix.system_size := 0; SolveMatrix.lu := None |}.
Definition solver : SolveMatrix.t := fst (SolveMatrix.setup solver0).
Definition partials0 : SolveMatrix.partials :=
  match snd (SolveMatrix.setup solver0) with
  | Ok J => J
  | Raise _ =>
      let none := SolveMatrix.mk_jacobian [] [] [] in
      SolveMatrix.mk_partials none none none
  end.
Definition mtx2 : matrix := [[1; 2]; [3; 4]].
Definition mtx_zero_row : matrix := [[1; 2]; [0; 0]].

End Scenario.

(** ** Readings of the results

    These are not part of the source: they name what the properties below
    say about the results of the components. *)

Module Derivatives.
Import Numpy SolveMatrix.

(** The product of a declared sub-Jacobian with a perturbation [d] of its
    [m] inputs: the first-order change of residual [i]. *)
Definition jvp (J : jacobian) (m : nat) (d : vec) (i : nat) : R :=
  sumR (map (fun j => entry J i j * nth j d 0) (seq 0 m)).

(** A sub-Jacobian of [n] residuals with respect to [m] inputs is well
    formed when its three arrays have one length and its indices are in
    range. *)
Definition well_formed (n m : nat) (J : jacobian) : Prop :=
  length (rows J) = length (val J) /\ length (cols J) = length (val J) /\
  Forall (fun r => (r < n)%nat) (rows J) /\ Forall (fun c => (c < m)%nat) (cols J).

End Derivatives.

Module Derived.
Import Numpy Mesh.


(** [spread v]: from one value per panel, one value per node: half of the
    value of each of the (one or two) panels that meet at the node. *)
Definition spread (v : array2) : array2 :=
  map2 (fun a b => smul3 0.5 (add3 a b)) (zero3 :: v) (v ++ [zero3]).

(** The mean chord vector of every panel of the first chordwise row: from
    row 0 to row 1 of the mesh, midway between the two spanwise edges. *)
Definition panel_chord (row0 row1 : array2) : array2 :=
  add2 (smul2 0.5 (sub2 (removelast row1) (removelast row0)))
       (smul2 0.5 (sub2 (tl row1) (tl row0))).


(** [raises_only e r]: the call [r] returns, or raises [e]. *)
Definition raises_only {A : Type} (e : string) (r : result A) : Prop :=
  match r with
  | Ok _ => True
  | Raise e' => e' = e
  end.

End Derived.

(** * Properties *)

(** ** Lists as arrays: updates, exchanges, elementwise maps *)

Module NumpyFacts.
Import Numpy.

Lemma map2_length {A B C : Type} (f : A -> B -> C) (u : list A) (v : list B) :
  length u = length v -> length (map2 f u v) = length u.
Proof.
  revert v; induction u as [|a u IH]; intros [|b v] H; simpl in *; try discriminate; auto.
Qed.


Lemma upd_length {A : Type} (i : nat) (x : A) (l : list A) : length (upd i x l) = length l.
Proof.
  revert i; induction l as [|a l IH]; intros [|i]; simpl; auto.
Qed.

Lemma nth_error_upd {A : Type} (i : nat) (x : A) (l : list A) (k : nat) :
  nth_error (upd i x l) k =
  if Nat.eqb k i then (if Nat.ltb k (length l) then Some x else None) else nth_error l k.
Proof.
  revert i k; induction l as [|a l IH]; intros i k.
  - destruct i, k; simpl; try reflexivity. destruct (Nat.eqb k i); reflexivity.
  - destruct i as [|i], k as [|k]; simpl; try reflexivity.
    rewrite IH. destruct (Nat.eqb k i); reflexivity.
Qed.

Lemma nth_error_swap {A : Type} (i j : nat) (l : list A) (k : nat) :
  (i < length l)%nat -> (j < length l)%nat ->
  nth_error (swap i j l) k = nth_error l (swap_index i j k).
Proof.
  intros Hi Hj. unfold swap, swap_index.
  destruct (nth_error l i) as [a|] eqn:Ea; [|apply nth_error_None in Ea; lia].
  destruct (nth_error l j) as [b|] eqn:Eb; [|apply nth_error_None in Eb; lia].
  rewrite nth_error_upd, upd_length, nth_error_upd.
  destruct (Nat.eqb k j) eqn:Ekj.
  - apply Nat.eqb_eq in Ekj; subst k.
    apply Nat.ltb_lt in Hj. rewrite Hj. auto.
  - destruct (Nat.eqb k i) eqn:Eki; auto.
    apply Nat.eqb_eq in Eki; subst k.
    apply Nat.ltb_lt in Hi. rewrite Hi. auto.
Qed.

Lemma swap_out_of_range {A : Type} (i j : nat) (l : list A) :
  ~ ((i < length l)%nat /\ (j < length l)%nat) -> swap i j l = l.
Proof.
  intros H. unfold swap.
  destruct (nth_error l i) as [a|] eqn:Ea; auto.
  destruct (nth_error l j) as [b|] eqn:Eb; auto.
  exfalso; apply H; split; apply nth_error_Some; congruence.
Qed.

Lemma swap_length {A : Type} (i j : nat) (l : list A) : length (swap i j l) = length l.
Proof.
  unfold swap.
  destruct (nth_error l i); auto. destruct (nth_error l j); auto.
  now rewrite !upd_length.
Qed.







(** *** Inner products and products with a vector *)

Lemma dot_nil_r (u : vec) : dot u [] = 0.
Proof. destruct u; reflexivity. Qed.

Lemma dot_comm (u v : vec) : dot u v = dot v u.
Proof.
  revert v; induction u as [|a u IH]; intros [|b v]; simpl; auto.
  rewrite IH; ring.
Qed.

Lemma dot_zeros_l (n : nat) (x : vec) : dot (zeros n) x = 0.
Proof.
  revert x; induction n as [|n IH]; intros [|b x]; simpl; auto.
  unfold zeros in IH. rewrite IH; ring.
Qed.

Lemma dot_zeros_r (n : nat) (x : vec) : dot x (zeros n) = 0.
Proof. rewrite dot_comm; apply dot_zeros_l. Qed.



Lemma mat_vec_length (M : matrix) (x : vec) : length (mat_vec M x) = length M.
Proof. apply length_map. Qed.


Lemma has_shape_swap (n m i j : nat) (M : matrix) :
  has_shape n m M -> has_shape n m (swap i j M).
Proof.
  intros [HL HF]. split; [now rewrite swap_length|].
  apply Forall_forall; intros row Hin.
  apply In_nth_error in Hin as [k Hk].
  destruct (lt_dec i (length M)) as [Hi|Hi]; [destruct (lt_dec j (length M)) as [Hj|Hj]|];
    try (rewrite swap_out_of_range in Hk by lia;
         apply nth_error_In in Hk; rewrite Forall_forall in HF; auto).
  rewrite nth_error_swap in Hk by assumption.
  apply nth_error_In in Hk; rewrite Forall_forall in HF; auto.
Qed.



End NumpyFacts.

(** ** The LU factorisation and the solves with its factors *)

Module ScipyFacts.
Import Numpy NumpyFacts Scipy.

(** *** The pivot search *)




(** *** Row interchanges *)



Lemma laswp_length {A : Type} (piv : list nat) (b : list A) : length (laswp piv b) = length b.
Proof.
  unfold laswp. generalize (combine (seq 0 (length piv)) piv) as l.
  intros l; revert b; induction l as [|ip l IH]; intros b; simpl; auto.
  rewrite IH. apply swap_length.
Qed.



(** *** Shapes of the factors *)



Lemma multipliers_length (top : vec) (rest : matrix) :
  length (multipliers top rest) = length rest.
Proof.
  unfold multipliers, col0. destruct (Req_dec_T (hd 0 top) 0); now rewrite ?length_map.
Qed.


Lemma vsub_scal_length (k : R) (u v : vec) :
  length u = length v -> length (vsub u (scal k v)) = length u.
Proof.
  intros H. unfold vsub, scal. apply map2_length. now rewrite length_map.
Qed.

Lemma trailing_shape (n : nat) (top : vec) (rest : matrix) :
  length top = S n -> has_shape n (S n) rest -> square n (trailing top rest).
Proof.
  intros Ht [HL HF]. unfold trailing.
  pose proof (multipliers_length top rest) as Hm.
  split.
  - rewrite map2_length; lia.
  - revert Hm HF. generalize (multipliers top rest) as l.
    clear HL. induction rest as [|row rest IH]; intros [|li l] Hm HF; simpl in *;
      try discriminate; constructor.
    + inversion HF; subst.
      rewrite vsub_scal_length; destruct row, top; simpl in *; try discriminate; lia.
    + apply IH; [lia|]. now inversion HF.
Qed.

Lemma square_inv (n : nat) (A : matrix) :
  square (S n) A ->
  exists a r rest, A = (a :: r) :: rest /\ length r = n /\ has_shape n (S n) rest.
Proof.
  intros [HL HF]. destruct A as [|top rest]; [discriminate|].
  inversion HF as [|? ? Ht HF']; subst.
  destruct top as [|a r]; [discriminate|].
  exists a, r, rest. repeat split; simpl in *; auto; lia.
Qed.

Lemma map2_cons_rows (m : nat) (l : vec) (M : matrix) :
  length l = length M ->
  Forall (fun row => length row = m) M ->
  Forall (fun row => length row = S m) (map2 cons l M).
Proof.
  revert M; induction l as [|x l IH]; intros [|row M] H HF; simpl in *;
    try discriminate; constructor.
  - inversion HF; subst; reflexivity.
  - apply IH; [lia|now inversion HF].
Qed.

Lemma getrf_step (n : nat) (A : matrix) (top : vec) (rest : matrix) :
  swap 0 (idamax (col0 A)) A = top :: rest ->
  getrf (S n) A =
  (top :: map2 cons (laswp (snd (getrf n (trailing top rest))) (multipliers top rest))
                    (fst (getrf n (trailing top rest))),
   idamax (col0 A) :: map S (snd (getrf n (trailing top rest)))).
Proof.
  intros H. simpl. rewrite H. destruct (getrf n (trailing top rest)); reflexivity.
Qed.

Lemma getrf_shape (n : nat) :
  forall A, square n A ->
    square n (fst (getrf n A)) /\ length (snd (getrf n A)) = n.
Proof.
  induction n as [|n IH]; intros A HA.
  - simpl. repeat split; constructor.
  - destruct (square_inv n (swap 0 (idamax (col0 A)) A)) as (a & r & rest & E & Hr & Hrest).
    { apply has_shape_swap; exact HA. }
    rewrite (getrf_step n A _ _ E). simpl.
    destruct (IH (trailing (a :: r) rest)) as [[HL HF] Hp].
    { apply trailing_shape; simpl; auto. }
    assert (Hl : length (laswp (snd (getrf n (trailing (a :: r) rest)))
                               (multipliers (a :: r) rest)) = n).
    { rewrite laswp_length, multipliers_length. apply Hrest. }
    repeat split.
    + simpl. rewrite map2_length; lia.
    + constructor; [simpl; lia|].
      apply map2_cons_rows; [lia|exact HF].
    + simpl. now rewrite length_map, Hp.
Qed.

(** *** The solve [A x = b] *)









Lemma getrs_N_length (n : nat) :
  forall (lu : matrix) (piv : list nat) (b : vec),
    length lu = n -> length b = n -> length (getrs 0 n lu piv b) = n.
Proof.
  intros lu piv b Hlu Hb. unfold getrs.
  assert (Hb' : length (laswp piv b) = n) by (now rewrite laswp_length).
  revert Hb'. generalize (laswp piv b) as c. clear b Hb.
  assert (HL : forall n lu c, length lu = n -> length c = n ->
                         length (trsm_lower_unit n lu c) = n).
  { clear. induction n as [|n IH]; intros [|top rest] [|c0 cs] H1 H2; simpl in *;
      try discriminate; auto.
    f_equal. apply IH.
    - unfold cols_from1. rewrite length_map. lia.
    - rewrite map2_length; unfold col0; rewrite ?length_map; lia. }
  assert (HU : forall n lu c, length lu = n -> length c = n ->
                         length (trsm_upper n lu c) = n).
  { clear. induction n as [|n IH]; intros [|top rest] [|c0 cs] H1 H2; simpl in *;
      try discriminate; auto.
    f_equal. apply IH; [unfold cols_from1; rewrite length_map|]; lia. }
  intros c Hc. apply HU; auto.
Qed.



(** *** Sums are invariant under exchanges *)








(** *** The transposed array, row by row *)


Lemma vsub_cons (a b : R) (u v : vec) : vsub (a :: u) (b :: v) = (a - b) :: vsub u v.
Proof. reflexivity. Qed.

Lemma scal_cons (k a : R) (u : vec) : scal k (a :: u) = (k * a) :: scal k u.
Proof. reflexivity. Qed.




Lemma mat_vec_transpose_nil_r (n : nat) (M : matrix) : mat_vec (transpose n M) [] = zeros n.
Proof.
  revert M; induction n as [|n IH]; intros M; simpl; auto.
  rewrite dot_nil_r. unfold zeros in *; simpl. f_equal. apply IH.
Qed.














End ScipyFacts.

(** ** The circulation solve *)

Module SolveMatrixFacts.
Import Numpy NumpyFacts Scipy ScipyFacts SolveMatrix.

(** *** Invertible arrays and the SciPy wrappers *)

Lemma dot_vadd_scal (k : R) (x r v : vec) :
  length r = length v -> dot (vadd (scal k r) v) x = k * dot r x + dot v x.
Proof.
  unfold vadd, scal.
  revert x v; induction r as [|a r IH]; intros x [|b v] H; simpl in *; try discriminate.
  - ring.
  - destruct x as [|c x]; simpl; [ring|]. rewrite IH by lia. ring.
Qed.

Lemma vec_mat_length (n : nat) (M : matrix) :
  Forall (fun row => length row = n) M ->
  forall x, length (vec_mat n x M) = n.
Proof.
  induction 1 as [|row M Hrow HF IH]; intros [|a x]; simpl;
    try (unfold zeros; now rewrite repeat_length).
  unfold vadd, scal. rewrite map2_length; rewrite length_map; auto.
  now rewrite IH.
Qed.

Lemma dot_vec_mat (n : nat) (M : matrix) (x : vec) :
  Forall (fun row => length row = n) M ->
  forall row, dot (vec_mat n row M) x = dot row (mat_vec M x).
Proof.
  induction 1 as [|r M Hr HF IH]; intros [|a row]; simpl; try apply dot_zeros_l.
  rewrite dot_vadd_scal by (now rewrite vec_mat_length).
  now rewrite IH.
Qed.

Lemma mat_vec_mat_mul (n : nat) (B A : matrix) (x : vec) :
  Forall (fun row => length row = n) A ->
  mat_vec (mat_mul n B A) x = mat_vec B (mat_vec A x).
Proof.
  intros HF. unfold mat_mul, mat_vec at 1 2. rewrite map_map.
  apply map_ext. intros row. now apply dot_vec_mat.
Qed.

Lemma eye_S (n : nat) : eye (S n) = (1 :: zeros n) :: map (cons 0) (eye n).
Proof.
  unfold eye. simpl. f_equal. rewrite <- seq_shift, !map_map. reflexivity.
Qed.

Lemma mat_vec_eye (x : vec) : mat_vec (eye (length x)) x = x.
Proof.
  induction x as [|a x IH]; [reflexivity|].
  simpl length. rewrite eye_S. cbn [mat_vec map dot]. rewrite dot_zeros_l. f_equal; [ring|].
  rewrite map_map. simpl.
  rewrite <- IH at 2. unfold mat_vec. apply map_ext. intros row. ring.
Qed.

Lemma mat_vec_zeros (M : matrix) (n : nat) : mat_vec M (zeros n) = zeros (length M).
Proof.
  induction M as [|row M IH]; simpl; auto.
  rewrite dot_zeros_r. unfold zeros in *. simpl. now rewrite <- IH.
Qed.

(** An invertible array is nonsingular. *)
Lemma invertible_nonsingular (n : nat) (A : matrix) :
  square n A -> invertible n A -> nonsingular n A.
Proof.
  intros [HL HF] (B & [HBL HBF] & Hleft & _) x Hx Hz.
  rewrite <- (mat_vec_eye x), Hx, <- Hleft.
  rewrite mat_vec_mat_mul by assumption.
  rewrite Hz, mat_vec_zeros. now rewrite HBL.
Qed.

Lemma squareb_square (n : nat) (M : matrix) : square n M -> squareb M = true.
Proof.
  intros [HL HF]. unfold squareb. apply forallb_forall. intros row Hin.
  rewrite Forall_forall in HF. apply Nat.eqb_eq. rewrite (HF row Hin). now symmetry.
Qed.

Lemma lu_factor_square (n : nat) (M : matrix) :
  square n M -> lu_factor M = Ok (getrf n M).
Proof.
  intros H. unfold lu_factor. rewrite (squareb_square n M H).
  destruct H as [-> _]. reflexivity.
Qed.

Lemma lu_solve_getrf (n : nat) (M : matrix) (b : vec) (trans : nat) :
  square n M -> length b = n ->
  lu_solve (getrf n M) b trans =
  Ok (getrs trans n (fst (getrf n M)) (snd (getrf n M)) b).
Proof.
  intros HM Hb. destruct (getrf_shape n M HM) as [[HL _] _].
  unfold lu_solve. destruct (getrf n M) as [lu piv]. simpl in *.
  rewrite HL, Hb, Nat.eqb_refl. reflexivity.
Qed.


(** *** Declared sub-Jacobians *)

Ltac nat_cases :=
  repeat match goal with
         | |- context [Nat.eqb ?a ?b] => destruct (Nat.eqb_spec a b)
         | |- context [Nat.leb ?a ?b] => destruct (Nat.leb_spec a b)
         | |- context [Nat.ltb ?a ?b] => destruct (Nat.ltb_spec a b)
         end; simpl; try lia; try ring.


Lemma outer_int_ones_r (a : list nat) (n : nat) :
  outer_int a (repeat 1%nat n) = map (fun i => repeat i n) a.
Proof.
  unfold outer_int. apply map_ext. intros i.
  induction n as [|n IH]; simpl; auto. now rewrite IH, Nat.mul_1_r.
Qed.

Lemma outer_int_ones_l (b : list nat) (n : nat) :
  outer_int (repeat 1%nat n) b = repeat b n.
Proof.
  unfold outer_int.
  induction n as [|n IH]; simpl; auto. rewrite IH. f_equal.
  rewrite <- (map_id b) at 2. apply map_ext. intros y. lia.
Qed.

Lemma outer_ones_l (g : vec) (n : nat) :
  outer (repeat 1 n) g = repeat (map (Rmult 1) g) n.
Proof.
  unfold outer. induction n as [|n IH]; simpl; auto. now rewrite IH.
Qed.

Lemma entry_of_app (r1 r2 c1 c2 : list nat) (v1 v2 : vec) (i j : nat) :
  length r1 = length c1 -> length c1 = length v1 ->
  entry_of (r1 ++ r2) (c1 ++ c2) (v1 ++ v2) i j =
  entry_of r1 c1 v1 i j + entry_of r2 c2 v2 i j.
Proof.
  revert c1 v1; induction r1 as [|r r1 IH]; intros [|c c1] [|v v1] H1 H2;
    simpl in *; try discriminate.
  - ring.
  - rewrite IH by lia. ring.
Qed.

(** One block of rows: residual [i'] against the inputs [s, s+1, ...]. *)
Lemma entry_of_block (i' i j : nat) :
  forall (m s : nat) (v : vec),
    length v = m ->
    entry_of (repeat i' m) (seq s m) v i j =
    if (Nat.eqb i' i && Nat.leb s j && Nat.ltb j (s + m))%bool then nth (j - s) v 0 else 0.
Proof.
  induction m as [|m IH]; intros s [|x v] H; simpl in *; try discriminate.
  - nat_cases.
  - rewrite IH by lia. nat_cases.
    + subst. rewrite Nat.sub_diag. ring.
    + replace (j - s)%nat with (S (j - S s)) by lia. simpl. ring.
Qed.

Lemma entry_of_blocks_cols (n i j : nat) :
  (j < n)%nat ->
  forall (k s : nat) (M : matrix),
    length M = k -> Forall (fun row => length row = n) M ->
    entry_of (concat (map (fun i' => repeat i' n) (seq s k)))
             (concat (repeat (seq 0 n) k)) (concat M) i j =
    if (Nat.leb s i && Nat.ltb i (s + k))%bool then nth j (nth (i - s) M []) 0 else 0.
Proof.
  intros Hj. induction k as [|k IH]; intros s [|row M] HL HF; simpl in *; try discriminate.
  - nat_cases.
  - apply Forall_cons_iff in HF as [Hrow HF].
    rewrite entry_of_app by (rewrite ?repeat_length, ?length_seq; lia).
    rewrite entry_of_block, IH by (auto; lia).
    rewrite Nat.sub_0_r. nat_cases.
    + subst. rewrite Nat.sub_diag. ring.
    + replace (i - s)%nat with (S (i - S s)) by lia. simpl. ring.
Qed.

Lemma entry_of_blocks_flat (n i c : nat) (g : vec) :
  length g = n ->
  forall (k s : nat),
    entry_of (concat (map (fun i' => repeat i' n) (seq s k)))
             (seq (s * n) (k * n)) (concat (repeat g k)) i c =
    if (Nat.leb s i && Nat.ltb i (s + k) && Nat.leb (i * n) c && Nat.ltb c (i * n + n))%bool
    then nth (c - i * n) g 0 else 0.
Proof.
  intros Hg. induction k as [|k IH]; intros s; simpl.
  - nat_cases.
  - rewrite seq_app, entry_of_app by (rewrite ?repeat_length, ?length_seq; lia).
    rewrite entry_of_block by assumption.
    replace (s * n + n)%nat with (S s * n)%nat by lia. rewrite IH.
    nat_cases; subst; try nia; try ring.
Qed.

Lemma entry_of_diag (x : R) (i j : nat) :
  forall (m s : nat),
    entry_of (seq s m) (seq s m) (repeat x m) i j =
    if (Nat.eqb i j && Nat.leb s i && Nat.ltb i (s + m))%bool then x else 0.
Proof.
  induction m as [|m IH]; intros s; simpl.
  - nat_cases.
  - rewrite IH. nat_cases.
Qed.

End SolveMatrixFacts.

Module SolveMatrixSpec.
Import Numpy NumpyFacts Scipy ScipyFacts SolveMatrix SolveMatrixFacts Scenario.


(** What [solve_nonlinear] does with a square array: no exception, the
    factors are kept and the vector that the triangular solves give is
    returned. *)
Lemma solve_nonlinear_square (self : t) (mtx : matrix) (rhs : vec) (n : nat) :
  square n mtx -> length rhs = n ->
  solve_nonlinear self mtx rhs =
  (with_lu self (getrf n mtx),
   Ok (getrs 0 n (fst (getrf n mtx)) (snd (getrf n mtx)) rhs)).
Proof.
  intros HM Hb. unfold solve_nonlinear.
  rewrite (lu_factor_square n mtx HM). now rewrite lu_solve_getrf.
Qed.

Lemma zero_row_not_solved (mtx : matrix) (rhs x : vec) (i n : nat) :
  nth_error mtx i = Some (zeros n) -> nth i rhs 0 <> 0 -> mat_vec mtx x <> rhs.
Proof.
  intros Hrow Hb E. apply Hb. rewrite <- E.
  unfold mat_vec. apply (map_nth_error (fun row => dot row x)) in Hrow.
  rewrite (nth_error_nth _ _ _ Hrow). apply dot_zeros_l.
Qed.

Lemma mtx2_square : square 2 mtx2.
Proof. repeat constructor. Qed.


Lemma solver_system_size : system_size solver = Z.of_nat 2.
Proof. reflexivity. Qed.

Lemma mtx_zero_row_square : square 2 mtx_zero_row.
Proof. repeat constructor. Qed.

Lemma mtx_zero_row_singular : ~ invertible 2 mtx_zero_row.
Proof.
  intros Hinv.
  assert (H := invertible_nonsingular 2 mtx_zero_row mtx_zero_row_square Hinv [2; -1] eq_refl).
  assert (E : [2; -1] = zeros 2).
  { apply H. cbv [mat_vec mtx_zero_row map dot zeros repeat]. f_equal; [lra|]. f_equal; lra. }
  cbv [zeros repeat] in E. injection E; intros; lra.
Qed.

(** The model on a concrete array: the factors of [[1, 2], [3, 4]] are the
    ones SciPy gives, [lu = [[3, 4], [1/3, 2/3]]] and [piv = [1, 1]], and the
    solve with [rhs = [5, 11]] gives [[1, 2]]. *)
Ltac real_cases :=
  repeat match goal with
         | |- context [Rlt_dec ?a ?b] =>
             destruct (Rlt_dec a b);
             [ try (exfalso; unfold Rabs in *; repeat destruct Rcase_abs; lra)
             | try (exfalso; unfold Rabs in *; repeat destruct Rcase_abs; lra) ]
         | |- context [Req_dec_T ?a ?b] =>
             destruct (Req_dec_T a b); [ try (exfalso; lra) | try (exfalso; lra) ]
         end.

Example getrf_mtx2 :
  getrf 2 mtx2 = ([[3; 4]; [1 / 3; 2 - 1 / 3 * 4]], [1; 1]%nat).
Proof.
  unfold mtx2.
  cbv [getrf col0 map hd idamax idamax_from].
  real_cases.
  cbv [swap nth_error upd multipliers trailing col0 cols_from1 map map2 hd tl vsub scal
       idamax idamax_from laswp fold_left combine seq length fst snd].
  real_cases; reflexivity.
Qed.

Example solve_mtx2 :
  exists x0 x1 : R,
    snd (solve_nonlinear solver mtx2 [5; 11]) = Ok [x0; x1] /\ x0 = 1 /\ x1 = 2.
Proof.
  unfold solve_nonlinear. rewrite (lu_factor_square 2 mtx2 mtx2_square), getrf_mtx2.
  cbv [lu_solve length Nat.eqb getrs laswp fold_left combine seq fst snd swap nth_error upd
       trsm_lower_unit trsm_upper col0 cols_from1 map map2 hd tl dot].
  do 2 eexists. split; [reflexivity|]. split; field.
Qed.



(** C2, as the code has it.  On a square [mtx], singular or not,
    [solve_nonlinear] raises nothing: it keeps the factors and returns a
    vector of length [system_size].  When [mtx] has a zero row [i] and
    [rhs[i]] is not zero, what it returns is not a solution. *)
Theorem solve_nonlinear_never_raises (self : t) (n : nat) (mtx : matrix) (rhs : vec) :
  system_size self = Z.of_nat n ->
  square n mtx -> length rhs = n ->
  exists circulations : vec,
    solve_nonlinear self mtx rhs = (with_lu self (getrf n mtx), Ok circulations) /\
    length circulations = n /\
    forall i : nat,
      nth_error mtx i = Some (zeros n) -> nth i rhs 0 <> 0 ->
      mat_vec mtx circulations <> rhs.
Proof.
  intros _ HM Hb.
  rewrite (solve_nonlinear_square self mtx rhs _ HM Hb).
  eexists. split; [reflexivity|]. split.
  - apply getrs_N_length; auto. apply (getrf_shape _ _ HM).
  - intros i Hrow Hi. apply (zero_row_not_solved mtx rhs _ i _ Hrow Hi).
Qed.

Lemma solve_nonlinear_never_raises_witness :
  exists circulations : vec,
    solve_nonlinear solver mtx_zero_row [1; 1] =
      (with_lu solver (getrf 2 mtx_zero_row), Ok circulations) /\
    length circulations = 2%nat /\
    forall i : nat,
      nth_error mtx_zero_row i = Some (zeros 2) -> nth i [1; 1] 0 <> 0 ->
      mat_vec mtx_zero_row circulations <> [1; 1].
Proof.
  exact (solve_nonlinear_never_raises solver 2 mtx_zero_row [1; 1] solver_system_size
           mtx_zero_row_square eq_refl).
Defined.

(** C2 fails as stated: [[1, 2], [0, 0]] is singular (it has a zero row),
    and [solve_nonlinear] on it with [rhs = [1, 1]] does not raise
    [SingularSystemError]; it returns a vector that does not solve the
    system. *)
Lemma singular_solve_returns :
  ~ invertible 2 mtx_zero_row /\
  nth_error mtx_zero_row 1 = Some (zeros 2) /\
  snd (solve_nonlinear solver mtx_zero_row [1; 1]) <> Raise "SingularSystemError" /\
  exists circulations : vec,
    snd (solve_nonlinear solver mtx_zero_row [1; 1]) = Ok circulations /\
    mat_vec mtx_zero_row circulations <> [1; 1].
Proof.
  split; [exact mtx_zero_row_singular|]. split; [reflexivity|].
  rewrite (solve_nonlinear_square solver mtx_zero_row [1; 1] 2 mtx_zero_row_square eq_refl).
  split; [discriminate|].
  eexists. split; [reflexivity|].
  apply (zero_row_not_solved mtx_zero_row [1; 1] _ 1 2); [reflexivity|simpl; lra].
Qed.

Lemma setup_ok (self self1 : t) (J0 : partials) :
  setup self = (self1, Ok J0) ->
  (0 <= system_size self1)%Z /\
  J0 = {| circulations_circulations :=
            {| rows := flatten (outer_int (arange (system_size self1))
                                          (ones_int (system_size self1)));
               cols := flatten (outer_int (ones_int (system_size self1))
                                          (arange (system_size self1)));
               val := zeros (Z.to_nat (system_size self1 * system_size self1)) |};
          circulations_mtx :=
            {| rows := flatten (outer_int (arange (system_size self1))
                                          (ones_int (system_size self1)));
               cols := arange (system_size self1 ^ 2);
               val := zeros (Z.to_nat (system_size self1 * system_size self1)) |};
          circulations_rhs :=
            {| rows := arange (system_size self1);
               cols := arange (system_size self1);
               val := repeat (-1) (Z.to_nat (system_size self1)) |} |}.
Proof.
  unfold setup. set (sz := fold_left _ (surfaces self) 0%Z).
  destruct (Z.ltb_spec sz 0) as [Hneg|Hpos]; intros E; [discriminate|].
  injection E as <- <-. cbn [system_size]. auto.
Qed.

(** C3.  After [setup], for every [mtx] of shape
    [(system_size, system_size)] and every vector of circulations,
    [linearize] gives three sub-Jacobians of the residual [R]: with respect
    to the circulations, entry [(i, j)] is [mtx[i][j]]; with respect to
    [rhs], it is the negative identity; with respect to [mtx], flattened by
    rows, the entry of residual [i] at [mtx[i'][k]] is [circulations[k]] when
    [i' = i] and zero for every other row [i']. *)
Theorem linearize_partials (self self1 : t) (J0 : partials) (n : nat)
        (mtx : matrix) (circulations : vec) :
  setup self = (self1, Ok J0) ->
  system_size self1 = Z.of_nat n ->
  square n mtx -> length circulations = n ->
  exists J : partials,
    snd (linearize self1 mtx circulations J0) = Ok J /\
    (forall i j : nat,
        (i < n)%nat -> (j < n)%nat ->
        entry (circulations_circulations J) i j = nth j (nth i mtx []) 0) /\
    (forall i j : nat,
        (i < n)%nat -> (j < n)%nat ->
        entry (circulations_rhs J) i j = if Nat.eqb i j then -1 else 0) /\
    (forall i i' k : nat,
        (i < n)%nat -> (i' < n)%nat -> (k < n)%nat ->
        entry (circulations_mtx J) i (i' * n + k) =
        if Nat.eqb i i' then nth k circulations 0 else 0).
Proof.
  intros Hsetup Hn HM HG.
  destruct (setup_ok self self1 J0 Hsetup) as [_ ->].
  unfold linearize. rewrite (lu_factor_square n mtx HM), Hn.
  replace (Z.ltb (Z.of_nat n) 0) with false by (symmetry; apply Z.ltb_ge; lia).
  eexists. split; [reflexivity|].
  cbn [circulations_circulations circulations_mtx circulations_rhs].
  unfold entry. cbn [rows cols val]. unfold flatten, arange, ones_int, ones.
  replace (Z.to_nat (Z.of_nat n ^ 2)) with (n * n)%nat by lia.
  rewrite !Nat2Z.id.
  rewrite outer_int_ones_r, outer_int_ones_l, outer_ones_l.
  repeat split.
  - intros i j Hi Hj.
    rewrite (entry_of_blocks_cols n i j Hj n 0 mtx) by apply HM.
    rewrite Nat.sub_0_r. nat_cases.
  - intros i j Hi Hj. rewrite entry_of_diag. nat_cases.
  - intros i i' k Hi Hi' Hk.
    rewrite (entry_of_blocks_flat n i (i' * n + k) (map (Rmult 1) circulations))
      by (now rewrite length_map).
    nat_cases; try nia.
    replace (i' * n + k - i * n)%nat with k by nia.
    rewrite (nth_indep _ 0 (1 * 0)) by (rewrite length_map; lia).
    rewrite map_nth. ring.
Qed.

Lemma setup_solver0 : setup solver0 = (solver, Ok partials0).
Proof. reflexivity. Qed.

Lemma linearize_partials_witness :
  exists J : partials,
    snd (linearize solver mtx2 [1; 2] partials0) = Ok J /\
    (forall i j : nat,
        (i < 2)%nat -> (j < 2)%nat ->
        entry (circulations_circulations J) i j = nth j (nth i mtx2 []) 0) /\
    (forall i j : nat,
        (i < 2)%nat -> (j < 2)%nat ->
        entry (circulations_rhs J) i j = if Nat.eqb i j then -1 else 0) /\
    (forall i i' k : nat,
        (i < 2)%nat -> (i' < 2)%nat -> (k < 2)%nat ->
        entry (circulations_mtx J) i (i' * 2 + k) =
        if Nat.eqb i i' then nth k [1; 2] 0 else 0).
Proof.
  exact (linearize_partials solver0 solver partials0 2 mtx2 [1; 2]
           setup_solver0 solver_system_size mtx2_square eq_refl).
Defined.




End SolveMatrixSpec.

(** ** Loops and indexing on meshes *)

Module MeshFacts.
Import Numpy NumpyFacts Mesh.

Lemma pt_eq (p q : pt) : c0 p = c0 q -> c1 p = c1 q -> c2 p = c2 q -> p = q.
Proof. destruct p, q; simpl; intros; subst; reflexivity. Qed.

Lemma index_nth_error {A : Type} (l : list A) (i : nat) (a : A) :
  nth_error l i = Some a -> index l i = Ok a.
Proof. unfold index. now intros ->. Qed.

Lemma index_lt {A : Type} (l : list A) (i : nat) (d : A) :
  (i < length l)%nat -> index l i = Ok (nth i l d).
Proof.
  intros H. apply index_nth_error. now apply nth_error_nth'.
Qed.

Lemma set_index_lt {A : Type} (l : list A) (i : nat) (v : A) :
  (i < length l)%nat -> set_index l i v = Ok (upd i v l).
Proof.
  intros H. unfold set_index. apply Nat.ltb_lt in H. now rewrite H.
Qed.

(** A loop whose state after [k] rounds is [I k]. *)
Lemma for_in_invariant {St : Type} (body : nat -> St -> result St) (I : nat -> St) (n : nat) :
  (forall k, (k < n)%nat -> body k (I k) = Ok (I (S k))) ->
  for_in (xrange n) body (I O) = Ok (I n).
Proof.
  intros H. unfold xrange.
  assert (G : forall m k, (k + m = n)%nat -> for_in (seq k m) body (I k) = Ok (I n)).
  { induction m as [|m IH]; intros k Hk; simpl.
    - now replace k with n by lia.
    - rewrite H by lia. simpl. apply IH. lia. }
  apply G. lia.
Qed.

Lemma for_in_ext {St : Type} (body1 body2 : nat -> St -> result St) (l : list nat) :
  (forall i s, body1 i s = body2 i s) ->
  forall s, for_in l body1 s = for_in l body2 s.
Proof.
  intros H. induction l as [|i l IH]; intros s; simpl; auto.
  rewrite H. destruct (body2 i s); simpl; auto.
Qed.

Lemma upd_app_r {A : Type} (l1 l2 : list A) (v : A) :
  upd (length l1) v (l1 ++ l2) = l1 ++ upd 0 v l2.
Proof.
  induction l1 as [|a l1 IH]; simpl; auto. now rewrite IH.
Qed.

Lemma firstn_succ {A : Type} (l : list A) (k : nat) (d : A) :
  (k < length l)%nat -> firstn (S k) l = firstn k l ++ [nth k l d].
Proof.
  revert k; induction l as [|a l IH]; intros [|k] H; simpl in *; try lia; auto.
  f_equal. apply IH. lia.
Qed.

Lemma skipn_nth {A : Type} (l : list A) (k : nat) (d : A) :
  (k < length l)%nat -> skipn k l = nth k l d :: skipn (S k) l.
Proof.
  revert k; induction l as [|a l IH]; intros [|k] H; simpl in *; try lia; auto.
  apply IH. lia.
Qed.

(** The loop that fills a state entry by entry from a source array. *)
Lemma for_in_fill {A B : Type} (src : list A) (f : A -> B) (init : list B) :
  length init = length src ->
  for_in (xrange (length src))
         (fun ind s => row <- index src ind ;; set_index s ind (f row)) init =
  Ok (map f src).
Proof.
  intros HL.
  set (I := fun k => map f (firstn k src) ++ skipn k init).
  change init with (I O).
  replace (map f src) with (I (length src)).
  - apply for_in_invariant. intros k Hk. unfold I.
    assert (a0 : A) by (destruct src; [simpl in Hk; lia|assumption]).
    assert (b0 : B) by (destruct init; [simpl in HL; lia|assumption]).
    rewrite (index_lt src k a0 Hk). cbn [bind].
    assert (Hlen : length (map f (firstn k src)) = k).
    { rewrite length_map, length_firstn. lia. }
    rewrite set_index_lt by (rewrite length_app, Hlen, length_skipn; lia).
    f_equal.
    rewrite <- Hlen at 1. rewrite upd_app_r.
    rewrite (skipn_nth init k b0) by lia. cbn [upd].
    rewrite (firstn_succ src k a0 Hk), map_app, <- app_assoc. reflexivity.
  - unfold I. rewrite firstn_all, <- HL, skipn_all. apply app_nil_r.
Qed.

Lemma flat_mesh_shape : has_shape 2 3 Scenario.flat_mesh.
Proof. repeat constructor. Qed.

Lemma unit_forces_shape : has_shape 1 2 Scenario.unit_forces.
Proof. repeat constructor. Qed.

End MeshFacts.

(** ** Displacement transfer *)

Module TransferDisplacementsFacts.
Import Numpy NumpyFacts Mesh MeshFacts TransferDisplacements ClosedForms.


Lemma station_map {A : Type} (F : A -> list pt) (l : list A) (j : nat) :
  (forall a, In a l -> (j < length (F a))%nat) ->
  station (map F l) j = Ok (map (fun a => nth j (F a) zero3) l).
Proof.
  induction l as [|a l IH]; intros H; simpl; auto.
  rewrite (index_lt (F a) j zero3) by (apply H; now left). simpl.
  rewrite IH by (intros; apply H; now right). reflexivity.
Qed.

Lemma map2_map_map {A B C D : Type} (g : B -> C -> D) (F : A -> B) (G : A -> C) (l : list A) :
  map2 g (map F l) (map G l) = map (fun a => g (F a) (G a)) l.
Proof. induction l as [|a l IH]; simpl; auto. now rewrite IH. Qed.

Lemma station_iadd_map {A : Type} (F : A -> list pt) (G : A -> pt) (l : list A) (j : nat) :
  (forall a, In a l -> (j < length (F a))%nat) ->
  station_iadd (map F l) j (map G l) =
  Ok (map (fun a => upd j (add3 (nth j (F a) zero3) (G a)) (F a)) l).
Proof.
  intros H. unfold station_iadd. rewrite station_map by assumption. simpl.
  unfold add2. rewrite map2_map_map, map2_map_map. reflexivity.
Qed.

Lemma station_update_map {A : Type} (F : A -> list pt) (f : pt -> pt) (l : list A) (j : nat) :
  (forall a, In a l -> (j < length (F a))%nat) ->
  station_update (map F l) j f =
  Ok (map (fun a => upd j (f (nth j (F a) zero3)) (F a)) l).
Proof.
  intros H. unfold station_update. rewrite station_map by assumption. simpl.
  rewrite map_map, map2_map_map. reflexivity.
Qed.

Lemma upd_upd {A : Type} (j : nat) (v v' : A) (l : list A) :
  upd j v (upd j v' l) = upd j v l.
Proof.
  revert j; induction l as [|a l IH]; intros [|j]; simpl; auto. now rewrite IH.
Qed.

Lemma nth_upd_same {A : Type} (j : nat) (v d : A) (l : list A) :
  (j < length l)%nat -> nth j (upd j v l) d = v.
Proof.
  revert j; induction l as [|a l IH]; intros [|j] H; simpl in *; try lia; auto.
  apply IH. lia.
Qed.

Lemma map2_app {A B C : Type} (f : A -> B -> C) (u1 u2 : list A) (v1 v2 : list B) :
  length u1 = length v1 ->
  map2 f (u1 ++ u2) (v1 ++ v2) = map2 f u1 v1 ++ map2 f u2 v2.
Proof.
  revert v1; induction u1 as [|a u1 IH]; intros [|b v1] H; simpl in *; try discriminate; auto.
  now rewrite IH by lia.
Qed.

Lemma station_loop (ny : nat) (Smesh : array3) (disp : list row6) :
  Forall (fun row => length row = ny) Smesh -> length disp = ny ->
  for_in (xrange ny)
    (fun ind def_mesh =>
       d <- index disp ind ;;
       let '(mk_pt dx dy dz, mk_pt rx ry rz) := d in
       let T := transform rx ry rz in
       S <- station Smesh ind ;;
       def_mesh <- station_iadd def_mesh ind (map (fun p => dot_mat3 p T) S) ;;
       def_mesh <- station_iadd_c0 def_mesh ind dx ;;
       def_mesh <- station_iadd_c1 def_mesh ind dy ;;
       station_iadd_c2 def_mesh ind dz)
    (map (fun _ => repeat zero3 ny) Smesh) =
  Ok (map (fun srow => map2 (fun s d => station_step d s zero3) srow disp) Smesh).
Proof.
  intros HF Hd.
  set (I := fun k => map (fun srow =>
              map2 (fun s d => station_step d s zero3) (firstn k srow) (firstn k disp)
              ++ repeat zero3 (ny - k)) Smesh).
  replace (map (fun _ => repeat zero3 ny) Smesh) with (I O)
    by (unfold I; simpl; now rewrite Nat.sub_0_r).
  replace (map (fun srow => map2 (fun s d => station_step d s zero3) srow disp) Smesh)
    with (I ny).
  2:{ unfold I. apply map_ext_in. intros srow Hin.
      rewrite Forall_forall in HF.
      rewrite Nat.sub_diag, app_nil_r, <- Hd, firstn_all, Hd, <- (HF srow Hin), firstn_all.
      reflexivity. }
  apply for_in_invariant. intros k Hk.
  rewrite Forall_forall in HF.
  assert (HLk : forall srow, In srow Smesh ->
            length (map2 (fun s d => station_step d s zero3) (firstn k srow) (firstn k disp)) = k).
  { intros srow Hin. rewrite map2_length; rewrite !length_firstn; rewrite ?(HF srow Hin); lia. }
  assert (HI : forall srow, In srow Smesh ->
            (k < length (map2 (fun s d => station_step d s zero3) (firstn k srow) (firstn k disp)
                          ++ repeat zero3 (ny - k)))%nat).
  { intros srow Hin. rewrite length_app, HLk, repeat_length by assumption. lia. }
  rewrite (index_lt disp k (zero3, zero3)) by lia. cbn [bind].
  destruct (nth k disp (zero3, zero3)) as [[dx dy dz] [rx ry rz]] eqn:Ed.
  rewrite <- (map_id Smesh) at 1.
  rewrite station_map by (intros srow Hin; rewrite (HF srow Hin); exact Hk).
  cbn [bind]. rewrite map_map. unfold I at 1.
  rewrite station_iadd_map by assumption. cbn [bind].
  unfold station_iadd_c0, station_iadd_c1, station_iadd_c2.
  rewrite station_update_map by (intros; rewrite upd_length; auto). cbn [bind].
  rewrite station_update_map by (intros; rewrite !upd_length; auto). cbn [bind].
  rewrite station_update_map by (intros; rewrite !upd_length; auto).
  apply f_equal. unfold I. apply map_ext_in. intros srow Hin.
  rewrite !upd_upd, !nth_upd_same by (rewrite ?upd_length; auto).
  pose proof (HLk srow Hin) as HL.
  set (L := map2 (fun s d => station_step d s zero3) (firstn k srow) (firstn k disp)) in *.
  rewrite (firstn_succ srow k zero3) by (rewrite (HF srow Hin); exact Hk).
  rewrite (firstn_succ disp k (zero3, zero3)) by lia.
  rewrite map2_app by (rewrite !length_firstn, (HF srow Hin); lia).
  fold L. rewrite <- app_assoc. cbn [map2 app].
  rewrite app_nth2 by lia. rewrite HL, Nat.sub_diag.
  replace (ny - k)%nat with (S (ny - S k)) by lia. cbn [repeat nth].
  rewrite <- HL at 1. rewrite upd_app_r. cbn [upd].
  rewrite Ed. reflexivity.
Qed.

Lemma index_last_nonempty {A : Type} (l : list A) (d : A) :
  l <> [] -> index_last l = Ok (last l d).
Proof.
  intros H. unfold index_last. apply index_nth_error.
  induction l as [|a [|b l] IH]; [congruence|reflexivity|].
  change (last (a :: b :: l) d) with (last (b :: l) d).
  rewrite <- IH by discriminate. simpl. now rewrite Nat.sub_0_r.
Qed.

Lemma map_const_repeat {A B : Type} (b : B) (l : list A) :
  map (fun _ => b) l = repeat b (length l).
Proof. induction l as [|a l IH]; simpl; auto. now rewrite IH. Qed.

Lemma last_In {A : Type} (l : list A) (d : A) : l <> [] -> In (last l d) l.
Proof.
  induction l as [|a [|b l] IH]; intros H; [congruence|now left|].
  right. apply IH. discriminate.
Qed.

(** With arrays of the declared shapes, [solve_nonlinear] returns the
    deformed mesh [def_mesh_of]. *)
Lemma displacements_closed_form (self : t) (mesh : array3) (disp : list row6) :
  has_shape (nx self) (ny self) mesh -> (1 <= nx self)%nat ->
  length disp = ny self ->
  solve_nonlinear self mesh disp =
  Ok (def_mesh_of (Surface.fem_origin (surface self)) mesh disp).
Proof.
  intros [HL HF] Hnx Hd. unfold solve_nonlinear, def_mesh_of.
  assert (Hne : mesh <> []) by (destruct mesh; [simpl in HL; lia|discriminate]).
  rewrite (index_lt mesh 0 []) by lia. cbn [bind].
  rewrite (index_last_nonempty mesh [] Hne). cbn [bind].
  replace (nth 0 mesh []) with (hd [] mesh) by (destruct mesh; reflexivity).
  set (ref_curve := add2 (smul2 (1 - Surface.fem_origin (surface self)) (hd [] mesh))
                         (smul2 (Surface.fem_origin (surface self)) (last mesh []))).
  rewrite <- HL.
  rewrite for_in_fill by (unfold zeros_like; now rewrite length_map).
  cbn [bind].
  assert (Href : length ref_curve = ny self).
  { rewrite Forall_forall in HF.
    unfold ref_curve, add2, smul2. rewrite map2_length; rewrite !length_map.
    - apply HF. destruct mesh; [congruence|now left].
    - rewrite (HF (hd [] mesh)), (HF (last mesh [])); auto.
      + now apply last_In.
      + destruct mesh; [congruence|now left]. }
  replace (zeros_like mesh)
    with (map (fun _ : list pt => repeat zero3 (ny self))
              (map (fun row => sub2 row ref_curve) mesh)).
  2:{ unfold zeros_like. rewrite map_map. apply map_ext_in. intros row Hin.
      rewrite Forall_forall in HF. now rewrite map_const_repeat, (HF row Hin). }
  rewrite station_loop; auto.
  - cbn [bind]. now rewrite map_map.
  - apply Forall_map. revert HF. apply Forall_impl. intros row Hrow.
    unfold sub2. rewrite map2_length; lia.
Qed.

End TransferDisplacementsFacts.

Module TransferDisplacementsSpec.
Import Numpy NumpyFacts Mesh MeshFacts TransferDisplacements ClosedForms.
Import TransferDisplacementsFacts Scenario.

(** With zero rotation angles the transform vanishes, and a round of the
    station loop leaves the translation alone. *)
Lemma transform_zero : transform 0 0 0 = mk_mat3 zero3 zero3 zero3.
Proof.
  unfold transform, minus_two_eye, iadd_block_1_1, iadd_block_stride2, iadd_block_0_0, zero3.
  cbn [c0 c1 c2 r0 r1 r2]. rewrite cos_0, sin_0.
  f_equal; apply pt_eq; cbn [c0 c1 c2]; ring.
Qed.

Lemma dot_mat3_zero (s : pt) : dot_mat3 s (mk_mat3 zero3 zero3 zero3) = zero3.
Proof. apply pt_eq; unfold dot_mat3, add3, smul3, zero3; cbn [c0 c1 c2 r0 r1 r2]; ring. Qed.

Lemma station_step_translation (tr s : pt) :
  station_step (tr, zero3) s zero3 = tr.
Proof.
  destruct tr as [dx dy dz].
  unfold station_step. unfold zero3 at 1.
  rewrite transform_zero, dot_mat3_zero.
  apply pt_eq; unfold add3, zero3; cbn [c0 c1 c2]; ring.
Qed.

Lemma translated_row (tr : pt) :
  forall (row ref_curve : array2) (ny : nat),
    length row = ny -> length ref_curve = ny ->
    add2 (map2 (fun s d => station_step d s zero3) (sub2 row ref_curve)
               (repeat (tr, zero3) ny)) row =
    map (fun p => add3 p tr) row.
Proof.
  unfold add2, sub2.
  induction row as [|p row IH]; intros [|q ref_curve] [|ny] H1 H2;
    cbn [length map2 map repeat] in *; try discriminate; auto.
  rewrite station_step_translation. f_equal.
  - apply pt_eq; unfold add3; cbn [c0 c1 c2]; ring.
  - apply IH; lia.
Qed.

Lemma uniform_translation (surface : Surface.t) (mesh : array3) (tr : pt) :
  has_shape (Surface.num_x surface) (Surface.num_y surface) mesh ->
  (1 <= Surface.num_x surface)%nat ->
  solve_nonlinear (init surface) mesh (repeat (tr, zero3) (Surface.num_y surface)) =
  Ok (map (map (fun p => add3 p tr)) mesh).
Proof.
  intros Hshape Hnx.
  rewrite displacements_closed_form; auto; [|apply repeat_length].
  f_equal. unfold def_mesh_of. cbn [TransferDisplacements.surface init ny]. unfold add_arr.
  set (ref_curve := add2 _ _).
  assert (Href : length ref_curve = Surface.num_y surface).
  { destruct Hshape as [HL HF]. rewrite Forall_forall in HF.
    assert (Hne : mesh <> []) by (destruct mesh; [simpl in HL; lia|discriminate]).
    unfold ref_curve, add2, smul2. rewrite map2_length; rewrite !length_map.
    - apply HF. destruct mesh; [congruence|now left].
    - rewrite (HF (hd [] mesh)), (HF (last mesh [])); auto.
      + now apply last_In.
      + destruct mesh; [congruence|now left]. }
  destruct Hshape as [_ HF]. clearbody ref_curve.
  induction HF as [|row mesh Hrow HF IH]; simpl; auto.
  rewrite IH. f_equal. now apply translated_row.
Qed.

(** The model on a concrete input: a strip of two points along x with the
    structural axis on the first one ([fem_origin = 0]), and the angle
    [rz = PI / 2] at its only station.  The local vector [(1, 0, 0)] of the
    second point is sent to [(1, 0, 0).dot(T) = (-1, -1, 0)], so the point
    moves to [(0, -1, 0)]. *)
Example quarter_turn :
  solve_nonlinear (init (Surface.mk "strip" 2 1 0))
    [[mk_pt 0 0 0]; [mk_pt 1 0 0]]
    [(mk_pt 0 0 0, mk_pt 0 0 (PI / 2))] =
  Ok [[mk_pt 0 0 0]; [mk_pt 0 (-1) 0]].
Proof.
  rewrite displacements_closed_form; [|repeat constructor..].
  apply f_equal.
  cbv [def_mesh_of init TransferDisplacements.surface
       Surface.fem_origin hd last add2 smul2 sub2 add_arr map map2 station_step
       transform minus_two_eye iadd_block_1_1 iadd_block_stride2 iadd_block_0_0
       dot_mat3 add3 sub3 smul3 zero3 c0 c1 c2 r0 r1 r2].
  rewrite cos_PI2, sin_PI2, cos_0, sin_0.
  repeat f_equal; lra.
Qed.

(** C7.  For every mesh (of the declared shape, with at least one chordwise
    row), zero rotation angles and the same translation [(dx, dy, dz)] at
    every station give the mesh with every point shifted by
    [(dx, dy, dz)]. *)
Theorem uniform_translation_shifts (surface : Surface.t) (mesh : array3) (dx dy dz : R) :
  has_shape (Surface.num_x surface) (Surface.num_y surface) mesh ->
  (1 <= Surface.num_x surface)%nat ->
  solve_nonlinear (init surface) mesh
    (repeat (mk_pt dx dy dz, mk_pt 0 0 0) (Surface.num_y surface)) =
  Ok (map (map (fun p => mk_pt (c0 p + dx) (c1 p + dy) (c2 p + dz))) mesh).
Proof.
  intros Hshape Hnx. exact (uniform_translation surface mesh (mk_pt dx dy dz) Hshape Hnx).
Qed.

Lemma uniform_translation_shifts_witness :
  solve_nonlinear (init wing) flat_mesh (repeat (mk_pt 1 2 3, mk_pt 0 0 0) 3) =
  Ok (map (map (fun p => mk_pt (c0 p + 1) (c1 p + 2) (c2 p + 3))) flat_mesh).
Proof.
  exact (uniform_translation_shifts wing flat_mesh 1 2 3 flat_mesh_shape (le_S 1 1 (le_n 1))).
Defined.

(** C6.  For every mesh (of the declared shape, with at least one chordwise
    row) and every [fem_origin] in [[0, 1]], the all-zero displacement field
    gives back the mesh. *)
Theorem zero_displacement_identity (surface : Surface.t) (mesh : array3) :
  has_shape (Surface.num_x surface) (Surface.num_y surface) mesh ->
  (1 <= Surface.num_x surface)%nat ->
  0 <= Surface.fem_origin surface <= 1 ->
  solve_nonlinear (init surface) mesh
    (repeat (mk_pt 0 0 0, mk_pt 0 0 0) (Surface.num_y surface)) = Ok mesh.
Proof.
  intros Hshape Hnx _.
  change (mk_pt 0 0 0) with zero3.
  rewrite (uniform_translation surface mesh zero3 Hshape Hnx).
  apply f_equal. rewrite <- (map_id mesh) at 2. apply map_ext. intros row.
  rewrite <- (map_id row) at 2. apply map_ext. intros p.
  apply pt_eq; unfold add3, zero3; cbn [c0 c1 c2]; ring.
Qed.

Lemma wing_fem_origin : 0 <= Surface.fem_origin wing <= 1.
Proof. unfold wing. cbn [Surface.fem_origin]. lra. Qed.

Lemma zero_displacement_identity_witness :
  solve_nonlinear (init wing) flat_mesh (repeat (mk_pt 0 0 0, mk_pt 0 0 0) 3) = Ok flat_mesh.
Proof.
  exact (zero_displacement_identity wing flat_mesh flat_mesh_shape
           (le_S 1 1 (le_n 1)) wing_fem_origin).
Defined.

End TransferDisplacementsSpec.

(** ** Load transfer *)

Module TransferLoadsFacts.
Import Numpy NumpyFacts Mesh MeshFacts TransferLoads ClosedForms.

Lemma panel_pts_cons2 (w : R) (row0 row1 : array2) (rest : array3) :
  panel_pts w (row0 :: row1 :: rest) = panel_row w row0 row1 :: panel_pts w (row1 :: rest).
Proof. reflexivity. Qed.

Lemma map2_length_eq {A B C : Type} (f : A -> B -> C) (u : list A) (v : list B) (n : nat) :
  length u = n -> length v = n -> length (map2 f u v) = n.
Proof. intros Hu Hv. rewrite map2_length; lia. Qed.

Lemma add2_length (u v : array2) (n : nat) :
  length u = n -> length v = n -> length (add2 u v) = n.
Proof. intros Hu Hv. unfold add2. rewrite map2_length; lia. Qed.

Lemma smul2_length (k : R) (u : array2) : length (smul2 k u) = length u.
Proof. apply length_map. Qed.

Lemma tl_length {A : Type} (l : list A) : length (tl l) = (length l - 1)%nat.
Proof. destruct l; simpl; lia. Qed.

Lemma but_last_length {A : Type} (l : list A) : length (removelast l) = (length l - 1)%nat.
Proof. rewrite removelast_firstn_len, length_firstn. lia. Qed.

Lemma panel_row_length (w : R) (row0 row1 : array2) (ny : nat) :
  length row0 = ny -> length row1 = ny -> length (panel_row w row0 row1) = (ny - 1)%nat.
Proof.
  intros H0 H1. unfold panel_row.
  repeat apply add2_length;
    rewrite smul2_length, ?but_last_length, ?tl_length; lia.
Qed.

Lemma nth_map2 {A B C : Type} (f : A -> B -> C) (u : list A) (v : list B) (k : nat)
      (da : A) (db : B) (dc : C) :
  (k < length u)%nat -> (k < length v)%nat ->
  nth k (map2 f u v) dc = f (nth k u da) (nth k v db).
Proof.
  revert v k; induction u as [|a u IH]; intros [|b v] [|k] H1 H2; simpl in *; try lia; auto.
  apply IH; lia.
Qed.

Lemma moment_loop (m : nat) (a_pts s_pts : array3) (a_row s_row sec_forces : array2) :
  nth_error a_pts 0 = Some a_row -> nth_error s_pts 0 = Some s_row ->
  length a_row = m -> length s_row = m -> length sec_forces = m ->
  for_in (xrange m)
    (fun ind moment =>
       a_row <- index a_pts 0 ;;
       a <- index a_row ind ;;
       s_row <- index s_pts 0 ;;
       s <- index s_row ind ;;
       let r := sub3 a s in
       F <- index sec_forces ind ;;
       set_index moment ind (cross r F))
    (repeat zero3 m) =
  Ok (moment_of a_row s_row sec_forces).
Proof.
  intros Ha Hs Hla Hls HlF.
  set (M := moment_of a_row s_row sec_forces).
  assert (HM : length M = m).
  { unfold M, moment_of. repeat apply map2_length_eq; assumption. }
  set (I := fun k => firstn k M ++ repeat zero3 (m - k)).
  replace (repeat zero3 m) with (I O) by (unfold I; simpl; now rewrite Nat.sub_0_r).
  replace M with (I m) by (unfold I; now rewrite Nat.sub_diag, app_nil_r, <- HM, firstn_all).
  apply for_in_invariant. intros k Hk. unfold I.
  rewrite (index_nth_error _ _ _ Ha), (index_nth_error _ _ _ Hs). cbn [bind].
  rewrite (index_lt a_row k zero3), (index_lt s_row k zero3), (index_lt sec_forces k zero3)
    by lia.
  cbn [bind].
  assert (Hf : length (firstn k M) = k) by (rewrite length_firstn; lia).
  rewrite set_index_lt by (rewrite length_app, Hf, repeat_length; lia).
  f_equal. rewrite <- Hf at 1. rewrite upd_app_r.
  replace (m - k)%nat with (S (m - S k)) by lia. cbn [repeat upd].
  rewrite (firstn_succ M k zero3) by lia. rewrite <- app_assoc. cbn [app].
  do 3 f_equal. unfold M, moment_of.
  rewrite (nth_map2 cross _ _ k zero3 zero3 zero3)
    by (rewrite ?(map2_length_eq sub3 a_row s_row m) by assumption; lia).
  rewrite (nth_map2 sub3 _ _ k zero3 zero3 zero3) by lia.
  reflexivity.
Qed.

Lemma sum_axis0_length (m : nat) (A : array3) :
  Forall (fun row => length row = m) A -> length (sum_axis0 m A) = m.
Proof.
  unfold sum_axis0. intros HF.
  assert (G : forall acc : array2, length acc = m -> length (fold_left add2 A acc) = m).
  { induction HF as [|row A Hrow HF IH]; intros acc Hacc; simpl; auto.
    apply IH. unfold add2. rewrite map2_length; lia. }
  apply G. apply repeat_length.
Qed.

(** With arrays of the declared shapes, [solve_nonlinear] returns
    [loads_of]. *)
Lemma loads_closed_form (self : t) (row0 row1 : array2) (rest sec_forces : array3) :
  length row0 = ny self -> length row1 = ny self -> (1 <= ny self)%nat ->
  Forall (fun row => length row = (ny self - 1)%nat) sec_forces ->
  solve_nonlinear self (row0 :: row1 :: rest) sec_forces =
  Ok (loads_of (ny self) (sum_axis0 (ny self - 1) sec_forces)
        (moment_of (panel_row 0.25 row0 row1) (panel_row (fem_origin self) row0 row1)
                   (sum_axis0 (ny self - 1) sec_forces))).
Proof.
  intros H0 H1 Hny HF. unfold solve_nonlinear, zeros_rows.
  replace (Nat.eqb (ny self) 0) with false by (symmetry; apply Nat.eqb_neq; lia).
  cbn [bind].
  rewrite (moment_loop (ny self - 1) _ _ (panel_row 0.25 row0 row1)
                       (panel_row (fem_origin self) row0 row1)).
  - reflexivity.
  - reflexivity.
  - reflexivity.
  - now apply panel_row_length.
  - now apply panel_row_length.
  - now apply sum_axis0_length.
Qed.

End TransferLoadsFacts.

Module TransferLoadsSpec.
Import Numpy NumpyFacts Mesh MeshFacts TransferLoads ClosedForms.
Import TransferLoadsFacts Scenario.

Lemma iadd_but_last_cons (g : row6 -> pt -> row6) (a : row6) (l : list row6)
      (b : pt) (v : array2) :
  l <> [] ->
  iadd_but_last g (a :: l) (b :: v) = g a b :: iadd_but_last g l v.
Proof.
  intros H. unfold iadd_but_last, but_last.
  destruct l as [|a' l]; [congruence|]. cbn [removelast map2 app length].
  simpl. now rewrite Nat.sub_0_r.
Qed.

Lemma iadd_but_last_single (g : row6 -> pt -> row6) (a : row6) (v : array2) :
  iadd_but_last g [a] v = [a].
Proof. reflexivity. Qed.

Lemma iadd_from1_cons (g : row6 -> pt -> row6) (a : row6) (l : list row6) (v : array2) :
  iadd_from1 g (a :: l) v = a :: map2 g l v.
Proof. reflexivity. Qed.

Lemma total_fst_map2_add_force (l : list row6) (v : array2) :
  length l = length v ->
  total (map fst (map2 add_force l v)) = add3 (total (map fst l)) (total v).
Proof.
  revert v; induction l as [|a l IH]; intros [|b v] H; simpl in *; try discriminate.
  - apply pt_eq; simpl; ring.
  - rewrite IH by lia. apply pt_eq; simpl; ring.
Qed.

Lemma total_fst_iadd_but_last (l : list row6) (v : array2) :
  length l = S (length v) ->
  total (map fst (iadd_but_last add_force l v)) = add3 (total (map fst l)) (total v).
Proof.
  revert v; induction l as [|a l IH]; intros v H; [discriminate|].
  destruct v as [|b v].
  - destruct l; [|discriminate]. simpl. apply pt_eq; simpl; ring.
  - rewrite iadd_but_last_cons by (destruct l; [discriminate|discriminate]).
    simpl in *. rewrite IH by lia. apply pt_eq; simpl; ring.
Qed.

Lemma total_fst_iadd_from1 (l : list row6) (v : array2) :
  length l = S (length v) ->
  total (map fst (iadd_from1 add_force l v)) = add3 (total (map fst l)) (total v).
Proof.
  destruct l as [|a l]; [discriminate|]. intros H.
  rewrite iadd_from1_cons. simpl in *. rewrite total_fst_map2_add_force by lia.
  apply pt_eq; simpl; ring.
Qed.

Lemma map_fst_map2_add_moment (l : list row6) (v : array2) :
  length l = length v -> map fst (map2 add_moment l v) = map fst l.
Proof.
  revert v; induction l as [|a l IH]; intros [|b v] H; simpl in *; try discriminate; auto.
  now rewrite IH by lia.
Qed.

Lemma map_fst_iadd_but_last_moment (l : list row6) (v : array2) :
  length l = S (length v) -> map fst (iadd_but_last add_moment l v) = map fst l.
Proof.
  revert v; induction l as [|a l IH]; intros v H; [discriminate|].
  destruct v as [|b v].
  - destruct l; [|discriminate]. reflexivity.
  - rewrite iadd_but_last_cons by (destruct l; [discriminate|discriminate]).
    simpl in *. now rewrite IH by lia.
Qed.

Lemma map_fst_iadd_from1_moment (l : list row6) (v : array2) :
  length l = S (length v) -> map fst (iadd_from1 add_moment l v) = map fst l.
Proof.
  destruct l as [|a l]; [discriminate|]. intros H.
  rewrite iadd_from1_cons. simpl in *. now rewrite map_fst_map2_add_moment by lia.
Qed.

Lemma iadd_but_last_length (g : row6 -> pt -> row6) (l : list row6) (v : array2) :
  length l = S (length v) -> length (iadd_but_last g l v) = length l.
Proof.
  revert v; induction l as [|a l IH]; intros v H; [discriminate|].
  destruct v as [|b v].
  - destruct l; [|discriminate]. reflexivity.
  - rewrite iadd_but_last_cons by (destruct l; [discriminate|discriminate]).
    simpl in *. now rewrite IH by lia.
Qed.

Lemma iadd_from1_length (g : row6 -> pt -> row6) (l : list row6) (v : array2) :
  length l = S (length v) -> length (iadd_from1 g l v) = length l.
Proof.
  destruct l as [|a l]; [discriminate|]. intros H.
  rewrite iadd_from1_cons. simpl in *. rewrite map2_length; lia.
Qed.

Lemma total_smul2 (k : R) (A : array2) : total (smul2 k A) = smul3 k (total A).
Proof.
  induction A as [|p A IH]; simpl.
  - apply pt_eq; simpl; ring.
  - fold (smul2 k A). rewrite IH. apply pt_eq; simpl; ring.
Qed.

Lemma total_fst_zeros_loads (ny : nat) : total (map fst (zeros_loads ny)) = zero3.
Proof.
  unfold zeros_loads. induction ny as [|ny IH]; simpl; auto.
  rewrite IH. apply pt_eq; simpl; ring.
Qed.

(** The force columns of [loads_of] add up to the total of the forces. *)
Lemma loads_of_total (ny : nat) (sec_forces moment : array2) :
  ny = S (length sec_forces) -> length moment = length sec_forces ->
  length (loads_of ny sec_forces moment) = ny /\
  total (map fst (loads_of ny sec_forces moment)) = total sec_forces.
Proof.
  intros Hny Hm. unfold loads_of.
  assert (L0 : length (zeros_loads ny) = S (length (smul2 0.5 sec_forces))).
  { unfold zeros_loads. rewrite repeat_length, smul2_length. exact Hny. }
  assert (L1 := iadd_but_last_length add_force _ _ L0).
  assert (L1' : length (iadd_but_last add_force (zeros_loads ny) (smul2 0.5 sec_forces))
                = S (length (smul2 0.5 sec_forces))) by congruence.
  assert (L2 := iadd_from1_length add_force _ _ L1').
  set (lf := iadd_from1 add_force _ _) in *.
  assert (L2' : length lf = S (length (smul2 0.5 moment))).
  { rewrite smul2_length, Hm, <- (smul2_length 0.5 sec_forces). congruence. }
  assert (L3 := iadd_but_last_length add_moment _ _ L2').
  assert (L3' : length (iadd_but_last add_moment lf (smul2 0.5 moment))
                = S (length (smul2 0.5 moment))) by congruence.
  split.
  - rewrite iadd_from1_length by assumption. rewrite L3, L2, L1.
    unfold zeros_loads. apply repeat_length.
  - rewrite map_fst_iadd_from1_moment, map_fst_iadd_but_last_moment by assumption.
    unfold lf. rewrite total_fst_iadd_from1, total_fst_iadd_but_last by assumption.
    rewrite total_fst_zeros_loads, total_smul2.
    apply pt_eq; simpl; lra.
Qed.

Lemma has_shape_two_rows (nx ny : nat) (mesh : array3) :
  has_shape nx ny mesh -> (2 <= nx)%nat ->
  exists row0 row1 rest,
    mesh = row0 :: row1 :: rest /\ length row0 = ny /\ length row1 = ny.
Proof.
  intros [HL HF] Hnx.
  destruct mesh as [|row0 [|row1 rest]]; simpl in HL; try lia.
  exists row0, row1, rest.
  apply Forall_cons_iff in HF as [H0 HF]. apply Forall_cons_iff in HF as [H1 _]. auto.
Qed.



(** The model on a concrete input: the flat mesh with the structural axis at
    [fem_origin = 0.35].  The arm from the structural point to the
    quarter-chord point of each panel is [(-0.1, 0, 0)], its moment with the
    force [(0, 0, 1)] is [(0, 0.1, 0)], and the nodes receive the halves. *)
Example offset_axis_moments :
  solve_nonlinear (init (Surface.mk "wing" 2 3 0.35)) flat_mesh unit_forces =
  Ok [(mk_pt 0 0 0.5, mk_pt 0 0.05 0);
      (mk_pt 0 0 1, mk_pt 0 0.1 0);
      (mk_pt 0 0 0.5, mk_pt 0 0.05 0)].
Proof.
  unfold flat_mesh.
  rewrite loads_closed_form; [|reflexivity|reflexivity|repeat constructor..].
  apply f_equal.
  cbv [loads_of moment_of panel_row init ny fem_origin Surface.num_y Surface.fem_origin
       Nat.sub unit_forces sum_axis0 fold_left repeat add2 smul2 map map2 removelast tl
       iadd_from1 iadd_but_last zeros_loads add_force add_moment but_last from1
       firstn skipn length app fst snd cross sub3 add3 smul3 zero3 c0 c1 c2].
  repeat f_equal; lra.
Qed.

(** What [solve_nonlinear] reads of the mesh is its first two rows. *)
Lemma solve_nonlinear_two_rows (self : t) (row0 row1 : array2) (rest1 rest2 sec_forces : array3) :
  solve_nonlinear self (row0 :: row1 :: rest1) sec_forces =
  solve_nonlinear self (row0 :: row1 :: rest2) sec_forces.
Proof.
  unfold solve_nonlinear. cbv zeta. rewrite !panel_pts_cons2.
  unfold index. cbn [nth_error]. reflexivity.
Qed.

(** C10.  Two deformed meshes that agree on their first two chordwise rows
    give, with the same sectional forces, the same loads: the rows after the
    second have no effect. *)
Theorem loads_read_first_two_rows (self : t) (mesh1 mesh2 sec_forces : array3) :
  firstn 2 mesh1 = firstn 2 mesh2 ->
  solve_nonlinear self mesh1 sec_forces = solve_nonlinear self mesh2 sec_forces.
Proof.
  intros H.
  destruct mesh1 as [|a0 [|a1 rest1]], mesh2 as [|b0 [|b1 rest2]]; simpl in H;
    try discriminate; try reflexivity;
    injection H; intros; subst; try reflexivity; apply solve_nonlinear_two_rows.
Qed.

Lemma loads_read_first_two_rows_witness :
  solve_nonlinear (init wing3) tall_mesh1 (unit_forces ++ unit_forces)%list =
  solve_nonlinear (init wing3) tall_mesh2 (unit_forces ++ unit_forces)%list.
Proof.
  exact (loads_read_first_two_rows (init wing3) tall_mesh1 tall_mesh2
           (unit_forces ++ unit_forces)%list eq_refl).
Defined.

End TransferLoadsSpec.

(** ** The two transfers together *)

Module TransferSpec.
Import Numpy NumpyFacts Mesh MeshFacts ClosedForms Scenario.
Import TransferDisplacementsFacts TransferLoadsFacts.
Import TransferDisplacementsSpec TransferLoadsSpec.

Lemma cross_zero_arm (p F : pt) : cross (sub3 p p) F = zero3.
Proof. apply pt_eq; unfold cross, sub3, zero3; cbn [c0 c1 c2]; ring. Qed.

(** Equal reference points give no moment. *)
Lemma moment_of_same (a_row sec_forces : array2) :
  Forall (fun m => m = zero3) (moment_of a_row a_row sec_forces).
Proof.
  unfold moment_of. revert sec_forces.
  induction a_row as [|p a_row IH]; intros [|F sec_forces]; simpl; constructor.
  - apply cross_zero_arm.
  - apply IH.
Qed.

Lemma snd_map2_add_force (l : list row6) (v : array2) :
  Forall (fun row => snd row = zero3) l ->
  Forall (fun row => snd row = zero3) (map2 TransferLoads.add_force l v).
Proof.
  intros H. revert v. induction H as [|a l Ha H IH]; intros [|b v]; simpl; constructor; auto.
Qed.

Lemma snd_map2_add_moment (l : list row6) (v : array2) :
  Forall (fun row => snd row = zero3) l -> Forall (fun m => m = zero3) v ->
  Forall (fun row => snd row = zero3) (map2 TransferLoads.add_moment l (smul2 0.5 v)).
Proof.
  intros H. revert v. induction H as [|a l Ha H IH]; intros [|b v] Hv;
    cbn [map2 smul2 map]; constructor.
  - apply Forall_cons_iff in Hv as [-> _].
    unfold TransferLoads.add_moment. cbn [snd]. rewrite Ha.
    apply pt_eq; unfold add3, smul3, zero3; cbn [c0 c1 c2]; ring.
  - apply IH. now apply Forall_cons_iff in Hv.
Qed.

Lemma Forall_removelast {A : Type} (P : A -> Prop) (l : list A) :
  Forall P l -> Forall P (removelast l).
Proof.
  induction 1 as [|a l Ha H IH]; simpl; auto.
  destruct l; auto.
Qed.

Lemma Forall_skipn {A : Type} (P : A -> Prop) (n : nat) (l : list A) :
  Forall P l -> Forall P (skipn n l).
Proof.
  revert l; induction n as [|n IH]; intros l H; simpl; auto.
  destruct l; auto. apply IH. now inversion H.
Qed.

Lemma Forall_firstn {A : Type} (P : A -> Prop) (n : nat) (l : list A) :
  Forall P l -> Forall P (firstn n l).
Proof.
  revert l; induction n as [|n IH]; intros l H; simpl; auto.
  destruct l; auto. inversion H; subst. constructor; auto.
Qed.

(** Without moments on the panels there are no moments on the nodes. *)
Lemma loads_of_no_moment (ny : nat) (sec_forces moment : array2) :
  Forall (fun m => m = zero3) moment ->
  Forall (fun row => snd row = zero3) (loads_of ny sec_forces moment).
Proof.
  intros Hm. unfold loads_of, TransferLoads.iadd_from1, TransferLoads.iadd_but_last,
    but_last, from1.
  assert (H0 : Forall (fun row : row6 => snd row = zero3) (TransferLoads.zeros_loads ny)).
  { unfold TransferLoads.zeros_loads.
    apply Forall_forall. intros row Hin. apply repeat_spec in Hin. now subst. }
  set (l0 := TransferLoads.zeros_loads ny) in *.
  assert (H1 : Forall (fun row : row6 => snd row = zero3)
                 (map2 TransferLoads.add_force (removelast l0) (smul2 0.5 sec_forces)
                  ++ skipn (length l0 - 1) l0)).
  { apply Forall_app. split.
    - apply snd_map2_add_force. now apply Forall_removelast.
    - now apply Forall_skipn. }
  set (l1 := (map2 _ (removelast l0) _ ++ _)%list) in *.
  assert (H2 : Forall (fun row : row6 => snd row = zero3)
                 (firstn 1 l1 ++ map2 TransferLoads.add_force (tl l1) (smul2 0.5 sec_forces))).
  { apply Forall_app. split.
    - now apply Forall_firstn.
    - apply snd_map2_add_force. destruct l1; auto. now inversion H1. }
  set (l2 := (firstn 1 l1 ++ _)%list) in *.
  assert (H3 : Forall (fun row : row6 => snd row = zero3)
                 (map2 TransferLoads.add_moment (removelast l2) (smul2 0.5 moment)
                  ++ skipn (length l2 - 1) l2)).
  { apply Forall_app. split.
    - apply snd_map2_add_moment; auto. now apply Forall_removelast.
    - now apply Forall_skipn. }
  set (l3 := (map2 _ (removelast l2) _ ++ _)%list) in *.
  apply Forall_app. split.
  - now apply Forall_firstn.
  - apply snd_map2_add_moment; auto. destruct l3; auto. now inversion H3.
Qed.

(** With [fem_origin = 0.25] the structural axis is the quarter-chord line,
    so the loads carry no moment. *)
Lemma quarter_chord_loads (surface : Surface.t) (row0 row1 : array2) (rest sec_forces : array3) :
  Surface.fem_origin surface = 0.25 ->
  length row0 = Surface.num_y surface -> length row1 = Surface.num_y surface ->
  (1 <= Surface.num_y surface)%nat ->
  Forall (fun row => length row = (Surface.num_y surface - 1)%nat) sec_forces ->
  exists loads : list row6,
    TransferLoads.solve_nonlinear (TransferLoads.init surface) (row0 :: row1 :: rest)
                                  sec_forces = Ok loads /\
    Forall (fun row => snd row = zero3) loads.
Proof.
  intros Hw H0 H1 Hny Hsf.
  rewrite loads_closed_form by (cbn [TransferLoads.init TransferLoads.ny]; assumption).
  cbn [TransferLoads.init TransferLoads.ny TransferLoads.fem_origin]. rewrite Hw.
  eexists. split; [reflexivity|].
  apply loads_of_no_moment, moment_of_same.
Qed.

Lemma total_unit_forces : total (sum_axis0 2 unit_forces) = mk_pt 0 0 2.
Proof.
  cbv [unit_forces sum_axis0 fold_left repeat add2 map2 total fold_right].
  apply pt_eq; unfold add3, zero3; cbn [c0 c1 c2]; lra.
Qed.

(** C8, as the code has it.  For a surface with [nx = 2], [ny = 3] and
    [fem_origin = 0.25] and every mesh of shape [(2, 3, 3)] (a flat one in
    particular): the zero displacement field gives back the mesh; and the
    unit force [(0, 0, 1)] on both panels gives loads on the three nodes
    whose force columns add up to [(0, 0, 2)] and whose moment columns are
    all zero, the structural axis being the quarter-chord line. *)
Theorem flat_wing_scenario (name : string) (mesh : array3) :
  has_shape 2 3 mesh ->
  TransferDisplacements.solve_nonlinear
    (TransferDisplacements.init (Surface.mk name 2 3 0.25)) mesh
    (repeat (mk_pt 0 0 0, mk_pt 0 0 0) 3) = Ok mesh /\
  exists loads : list row6,
    TransferLoads.solve_nonlinear
      (TransferLoads.init (Surface.mk name 2 3 0.25)) mesh
      [[mk_pt 0 0 1; mk_pt 0 0 1]] = Ok loads /\
    length loads = 3%nat /\
    total (map fst loads) = mk_pt 0 0 2 /\
    Forall (fun row => snd row = mk_pt 0 0 0) loads.
Proof.
  intros Hmesh. set (surface := Surface.mk name 2 3 0.25).
  split.
  - change (mk_pt 0 0 0) with zero3.
    assert (H := uniform_translation surface mesh zero3 Hmesh (le_S 1 1 (le_n 1))).
    cbn [Surface.num_y surface] in H. fold surface. rewrite H.
    apply f_equal. rewrite <- (map_id mesh) at 2. apply map_ext. intros row.
    rewrite <- (map_id row) at 2. apply map_ext. intros p.
    apply pt_eq; unfold add3, zero3; cbn [c0 c1 c2]; ring.
  - destruct (has_shape_two_rows 2 3 mesh Hmesh (le_n 2)) as (row0 & row1 & rest & E & H0 & H1).
    subst mesh.
    assert (Hsf : Forall (fun row : list pt => length row = 2%nat) unit_forces)
      by (repeat constructor).
    destruct (quarter_chord_loads surface row0 row1 rest unit_forces eq_refl H0 H1
                (le_S 1 2 (le_S 1 1 (le_n 1))) Hsf) as (loads & Hloads & Hmom).
    exists loads. split; [exact Hloads|].
    rewrite loads_closed_form in Hloads
      by (cbn [TransferLoads.init TransferLoads.ny surface Surface.num_y]; auto).
    injection Hloads as <-.
    cbn [TransferLoads.init TransferLoads.ny TransferLoads.fem_origin surface Surface.num_y
         Surface.fem_origin Nat.sub] in *.
    destruct (loads_of_total 3 (sum_axis0 2 unit_forces)
                (moment_of (panel_row 0.25 row0 row1) (panel_row 0.25 row0 row1)
                           (sum_axis0 2 unit_forces))) as [HL HT].
    + reflexivity.
    + unfold moment_of. apply map2_length_eq; [|reflexivity].
      apply map2_length_eq; now apply (panel_row_length _ _ _ 3).
    + repeat split; auto. rewrite HT. exact total_unit_forces.
Qed.

Lemma flat_wing_scenario_witness :
  TransferDisplacements.solve_nonlinear
    (TransferDisplacements.init (Surface.mk "wing" 2 3 0.25)) flat_mesh
    (repeat (mk_pt 0 0 0, mk_pt 0 0 0) 3) = Ok flat_mesh /\
  exists loads : list row6,
    TransferLoads.solve_nonlinear
      (TransferLoads.init (Surface.mk "wing" 2 3 0.25)) flat_mesh
      [[mk_pt 0 0 1; mk_pt 0 0 1]] = Ok loads /\
    length loads = 3%nat /\
    total (map fst loads) = mk_pt 0 0 2 /\
    Forall (fun row => snd row = mk_pt 0 0 0) loads.
Proof.
  exact (flat_wing_scenario "wing" flat_mesh flat_mesh_shape).
Defined.

(** C8 fails as stated: on the flat mesh of the scenario the loads have no
    nonzero moment. *)
Lemma flat_wing_moments_vanish :
  exists loads : list row6,
    TransferLoads.solve_nonlinear (TransferLoads.init wing) flat_mesh unit_forces = Ok loads /\
    Forall (fun row => snd row = mk_pt 0 0 0) loads.
Proof.
  apply (quarter_chord_loads wing); try reflexivity; repeat constructor.
Qed.

(** C9, as the code has it.  A [fem_origin] outside [[0, 1]] is not
    rejected: with arrays of the declared shapes both transfers return, and
    what they return is computed with that weight by the same formulas as for
    a weight inside the interval. *)
Theorem fem_origin_not_checked (surface : Surface.t) (mesh : array3) (disp : list row6)
        (sec_forces : array3) :
  has_shape (Surface.num_x surface) (Surface.num_y surface) mesh ->
  length disp = Surface.num_y surface ->
  has_shape (Surface.num_x surface - 1) (Surface.num_y surface - 1) sec_forces ->
  (2 <= Surface.num_x surface)%nat -> (1 <= Surface.num_y surface)%nat ->
  ~ (0 <= Surface.fem_origin surface <= 1) ->
  TransferDisplacements.solve_nonlinear (TransferDisplacements.init surface) mesh disp =
    Ok (def_mesh_of (Surface.fem_origin surface) mesh disp) /\
  exists row0 row1 rest,
    mesh = row0 :: row1 :: rest /\
    TransferLoads.solve_nonlinear (TransferLoads.init surface) mesh sec_forces =
      Ok (loads_of (Surface.num_y surface)
            (sum_axis0 (Surface.num_y surface - 1) sec_forces)
            (moment_of (panel_row 0.25 row0 row1)
                       (panel_row (Surface.fem_origin surface) row0 row1)
                       (sum_axis0 (Surface.num_y surface - 1) sec_forces))).
Proof.
  intros Hmesh Hdisp [_ Hsf] Hnx Hny _. split.
  - apply (displacements_closed_form (TransferDisplacements.init surface));
      cbn [TransferDisplacements.init TransferDisplacements.nx TransferDisplacements.ny];
      auto; lia.
  - destruct (has_shape_two_rows _ _ mesh Hmesh Hnx) as (row0 & row1 & rest & E & H0 & H1).
    exists row0, row1, rest. split; [exact E|]. subst mesh.
    apply (loads_closed_form (TransferLoads.init surface));
      cbn [TransferLoads.init TransferLoads.ny]; auto.
Qed.

Lemma wing_out_of_range_weight : ~ (0 <= Surface.fem_origin wing_out_of_range <= 1).
Proof. unfold wing_out_of_range. cbn [Surface.fem_origin]. lra. Qed.

Lemma fem_origin_not_checked_witness :
  TransferDisplacements.solve_nonlinear (TransferDisplacements.init wing_out_of_range)
      flat_mesh (repeat (mk_pt 0 0 0, mk_pt 0 0 0) 3) =
    Ok (def_mesh_of 2 flat_mesh (repeat (mk_pt 0 0 0, mk_pt 0 0 0) 3)) /\
  exists row0 row1 rest,
    flat_mesh = row0 :: row1 :: rest /\
    TransferLoads.solve_nonlinear (TransferLoads.init wing_out_of_range) flat_mesh unit_forces =
      Ok (loads_of 3 (sum_axis0 2 unit_forces)
            (moment_of (panel_row 0.25 row0 row1) (panel_row 2 row0 row1)
                       (sum_axis0 2 unit_forces))).
Proof.
  exact (fem_origin_not_checked wing_out_of_range flat_mesh
           (repeat (mk_pt 0 0 0, mk_pt 0 0 0) 3) unit_forces
           flat_mesh_shape eq_refl unit_forces_shape (le_n 2)
           (le_S 1 2 (le_S 1 1 (le_n 1))) wing_out_of_range_weight).
Defined.

(** C9 fails as stated: with [fem_origin = 2] neither transfer raises
    [InvalidWeightError]; both return their result. *)
Lemma out_of_range_fem_origin_accepted :
  ~ (0 <= Surface.fem_origin wing_out_of_range <= 1) /\
  TransferDisplacements.solve_nonlinear (TransferDisplacements.init wing_out_of_range)
      flat_mesh (repeat (mk_pt 0 0 0, mk_pt 0 0 0) 3) = Ok flat_mesh /\
  TransferDisplacements.solve_nonlinear (TransferDisplacements.init wing_out_of_range)
      flat_mesh (repeat (mk_pt 0 0 0, mk_pt 0 0 0) 3) <> Raise "InvalidWeightError" /\
  (exists loads : list row6,
      TransferLoads.solve_nonlinear (TransferLoads.init wing_out_of_range)
        flat_mesh unit_forces = Ok loads) /\
  TransferLoads.solve_nonlinear (TransferLoads.init wing_out_of_range)
    flat_mesh unit_forces <> Raise "InvalidWeightError".
Proof.
  assert (HD : TransferDisplacements.solve_nonlinear
                 (TransferDisplacements.init wing_out_of_range)
                 flat_mesh (repeat (mk_pt 0 0 0, mk_pt 0 0 0) 3) = Ok flat_mesh).
  { change (mk_pt 0 0 0) with zero3.
    assert (H := uniform_translation wing_out_of_range flat_mesh zero3 flat_mesh_shape
                   (le_S 1 1 (le_n 1))).
    cbn [Surface.num_y wing_out_of_range] in H. rewrite H.
    apply f_equal. rewrite <- (map_id flat_mesh) at 2. apply map_ext. intros row.
    rewrite <- (map_id row) at 2. apply map_ext. intros p.
    apply pt_eq; unfold add3, zero3; cbn [c0 c1 c2]; ring. }
  assert (HLd := loads_closed_form
                   (TransferLoads.init wing_out_of_range)
                   [mk_pt 0 0 0; mk_pt 0 1 0; mk_pt 0 2 0]
                   [mk_pt 1 0 0; mk_pt 1 1 0; mk_pt 1 2 0] [] unit_forces
                   eq_refl eq_refl (le_S 1 2 (le_S 1 1 (le_n 1)))
                   (proj2 unit_forces_shape)).
  split; [exact wing_out_of_range_weight|].
  split; [exact HD|]. split; [rewrite HD; discriminate|].
  split; [eexists; exact HLd|].
  intros E. pose proof (eq_trans (eq_sym HLd) E) as E'. discriminate E'.
Qed.

End TransferSpec.

(** ** The circulation solve as a linear map *)

Module SolveMatrixAlgebra.
Import Numpy NumpyFacts Scipy ScipyFacts SolveMatrix SolveMatrixFacts SolveMatrixSpec Scenario.

(** The product with a matrix is linear. *)
Lemma dot_vadd_r (row x y : vec) :
  length x = length y -> dot row (vadd x y) = dot row x + dot row y.
Proof.
  unfold vadd. revert x y; induction row as [|a row IH]; intros [|b x] [|c y] H;
    simpl in *; try discriminate; try ring.
  rewrite IH by congruence. ring.
Qed.









End SolveMatrixAlgebra.

Module SolveMatrixMore.
Import Numpy NumpyFacts Scipy ScipyFacts SolveMatrix SolveMatrixFacts SolveMatrixSpec Scenario.
Import SolveMatrixAlgebra.








(** X4.  [solve_nonlinear] assigns [self.lu] before it solves: with a
    square [mtx] and a right-hand side of another length the call raises
    [ValueError], and the instance nevertheless keeps the factors of the new
    [mtx]. *)
Theorem failed_solve_keeps_new_factors (self : t) (n : nat) (mtx : matrix) (rhs : vec) :
  square n mtx -> length rhs <> n ->
  solve_nonlinear self mtx rhs = (with_lu self (getrf n mtx), Raise "ValueError") /\
  lu (fst (solve_nonlinear self mtx rhs)) = Some (getrf n mtx).
Proof.
  intros HM Hb. unfold solve_nonlinear. rewrite (lu_factor_square n mtx HM).
  assert (Hlu : length (fst (getrf n mtx)) = n) by apply (getrf_shape _ _ HM).
  unfold lu_solve. destruct (getrf n mtx) as [f piv]. cbn [fst] in Hlu.
  destruct (Nat.eqb_spec (length f) (length rhs)) as [E|E]; [congruence|].
  split; reflexivity.
Qed.

Lemma failed_solve_keeps_new_factors_witness :
  solve_nonlinear solver mtx2 [5; 11; 7] = (with_lu solver (getrf 2 mtx2), Raise "ValueError") /\
  lu (fst (solve_nonlinear solver mtx2 [5; 11; 7])) = Some (getrf 2 mtx2).
Proof.
  apply (failed_solve_keeps_new_factors solver 2 mtx2 [5; 11; 7]).
  - exact mtx2_square.
  - simpl; lia.
Defined.

(** X5.  [setup] does not create the attribute [lu]: on an instance that
    has not factored a matrix yet, [solve_linear] after [setup] raises
    [AttributeError] in every mode and leaves the instance as it is. *)
Theorem solve_linear_needs_factors (self : t) (d_outputs d_residuals : vec) (mode : string) :
  lu self = None ->
  solve_linear (fst (setup self)) d_outputs d_residuals mode =
    (fst (setup self), Raise "AttributeError").
Proof.
  intros H. unfold solve_linear.
  assert (E : lu (fst (setup self)) = None).
  { unfold setup. now destruct (Z.ltb _ 0). }
  now rewrite E.
Qed.

Lemma solve_linear_needs_factors_witness :
  solve_linear (fst (setup solver0)) [0; 0] [1; 0] "fwd" =
    (fst (setup solver0), Raise "AttributeError").
Proof.
  apply (solve_linear_needs_factors solver0 [0; 0] [1; 0] "fwd"). reflexivity.
Defined.



End SolveMatrixMore.

(** ** The partials of the circulation solve *)

Module DerivativesFacts.
Import Numpy NumpyFacts Scipy ScipyFacts SolveMatrix SolveMatrixFacts SolveMatrixSpec Scenario.
Import SolveMatrixAlgebra Derivatives.

Lemma sumR_app (u v : vec) : sumR (u ++ v) = sumR u + sumR v.
Proof. induction u as [|a u IH]; simpl; [ring|]. rewrite IH; ring. Qed.

Lemma sumR_map_zero (f : nat -> R) (l : list nat) :
  (forall c, In c l -> f c = 0) -> sumR (map f l) = 0.
Proof.
  induction l as [|a l IH]; intros H; simpl; auto.
  rewrite H by (now left). rewrite IH; [ring|]. intros c Hc; apply H; now right.
Qed.

Lemma sumR_map_ext (f g : nat -> R) (l : list nat) :
  (forall c, In c l -> f c = g c) -> sumR (map f l) = sumR (map g l).
Proof. intros H. f_equal. now apply map_ext_in. Qed.

Lemma seq_map_add (a n : nat) : seq a n = map (Nat.add a) (seq 0 n).
Proof.
  revert a; induction n as [|n IH]; intros a; simpl; auto.
  f_equal; [lia|]. rewrite (IH (S a)), <- (seq_shift n 0), map_map.
  apply map_ext. intros; lia.
Qed.

Lemma sum_nth_dot (u v : vec) :
  length u = length v ->
  sumR (map (fun j => nth j u 0 * nth j v 0) (seq 0 (length u))) = dot u v.
Proof.
  revert v; induction u as [|a u IH]; intros [|b v] H; simpl in *; try discriminate; auto.
  rewrite <- seq_shift, map_map. simpl. rewrite IH by congruence. reflexivity.
Qed.

Lemma sum_delta (i : nat) (x : R) (g : nat -> R) :
  forall m s : nat,
    sumR (map (fun j => (if Nat.eqb i j then x else 0) * g j) (seq s m)) =
    if (Nat.leb s i && Nat.ltb i (s + m))%bool then x * g i else 0.
Proof.
  induction m as [|m IH]; intros s; simpl.
  - nat_cases.
  - rewrite IH. nat_cases; subst; try lia; ring.
Qed.

Lemma sum_window (a n m : nat) (h F : nat -> R) :
  (a + n <= m)%nat ->
  sumR (map (fun c => (if (Nat.leb a c && Nat.ltb c (a + n))%bool then h (c - a)%nat else 0) * F c)
            (seq 0 m)) =
  sumR (map (fun k => h k * F (a + k)%nat) (seq 0 n)).
Proof.
  intros H. replace m with (a + (n + (m - a - n)))%nat by lia.
  rewrite !seq_app, !map_app, !sumR_app. simpl.
  rewrite sumR_map_zero, (sumR_map_zero _ (seq (a + n) _)).
  - rewrite (seq_map_add a n), map_map. rewrite Rplus_0_l, Rplus_0_r.
    apply sumR_map_ext. intros k Hk. apply in_seq in Hk.
    nat_cases. replace (a + k - a)%nat with k by lia. reflexivity.
  - intros c Hc. apply in_seq in Hc. nat_cases.
  - intros c Hc. apply in_seq in Hc. nat_cases.
Qed.

Lemma nth_concat (n : nat) (k : nat) :
  forall (E : matrix) (i : nat),
    Forall (fun row => length row = n) E -> (i < length E)%nat -> (k < n)%nat ->
    nth (i * n + k) (concat E) 0 = nth k (nth i E []) 0.
Proof.
  induction E as [|row E IH]; intros i HF Hi Hk; simpl in *; [lia|].
  apply Forall_cons_iff in HF as [Hr HF].
  destruct i as [|i]; simpl.
  - apply app_nth1. lia.
  - rewrite app_nth2 by lia. rewrite <- IH by (auto; lia). f_equal. lia.
Qed.

Lemma residual_nth (M : matrix) (b x : vec) (i : nat) :
  length b = length M -> (i < length M)%nat ->
  nth i (apply_nonlinear M b x) 0 = dot (nth i M []) x - nth i b 0.
Proof.
  intros Hb Hi. unfold apply_nonlinear, vsub.
  rewrite (TransferLoadsFacts.nth_map2 Rminus _ _ i 0 0 0)
    by (rewrite ?mat_vec_length, ?Hb; exact Hi).
  f_equal. unfold mat_vec.
  rewrite (nth_indep _ 0 (dot [] x)) by (rewrite length_map; exact Hi).
  apply (map_nth (fun row => dot row x)).
Qed.

Lemma dot_vadd_l (u v x : vec) :
  length u = length v -> dot (vadd u v) x = dot u x + dot v x.
Proof. intros H. now rewrite dot_comm, dot_vadd_r, !(dot_comm x). Qed.

Lemma length_concat_rows {A : Type} (m : nat) (L : list (list A)) :
  Forall (fun row => length row = m) L -> length (concat L) = (length L * m)%nat.
Proof.
  induction 1 as [|row L Hr _ IH]; simpl; auto. rewrite length_app, IH, Hr. reflexivity.
Qed.

(** What [linearize] returns after [setup], with the index arrays written
    out. *)
Lemma linearize_after_setup (self self1 : t) (J0 : partials) (n : nat)
      (mtx : matrix) (circulations : vec) :
  setup self = (self1, Ok J0) ->
  system_size self1 = Z.of_nat n ->
  square n mtx ->
  snd (linearize self1 mtx circulations J0) =
  Ok {| circulations_circulations :=
          {| rows := concat (map (fun i => repeat i n) (seq 0 n));
             cols := concat (repeat (seq 0 n) n);
             val := concat mtx |};
        circulations_mtx :=
          {| rows := concat (map (fun i => repeat i n) (seq 0 n));
             cols := seq 0 (n * n);
             val := concat (repeat (map (Rmult 1) circulations) n) |};
        circulations_rhs :=
          {| rows := seq 0 n; cols := seq 0 n; val := repeat (-1) n |} |}.
Proof.
  intros Hsetup Hn HM.
  destruct (setup_ok self self1 J0 Hsetup) as [_ ->].
  unfold linearize. rewrite (lu_factor_square n mtx HM), Hn.
  replace (Z.ltb (Z.of_nat n) 0) with false by (symmetry; apply Z.ltb_ge; lia).
  cbn [snd circulations_circulations circulations_mtx circulations_rhs rows cols val].
  unfold flatten, arange, ones_int, ones.
  replace (Z.to_nat (Z.of_nat n ^ 2)) with (n * n)%nat by lia.
  rewrite !Nat2Z.id.
  now rewrite outer_int_ones_r, outer_int_ones_l, outer_ones_l.
Qed.

End DerivativesFacts.

Module SolveMatrixDerivatives.
Import Numpy NumpyFacts Scipy ScipyFacts SolveMatrix SolveMatrixFacts SolveMatrixSpec Scenario.
Import SolveMatrixAlgebra Derivatives DerivativesFacts.

(** X7.  The partials that [linearize] fills after [setup] are the
    derivatives of the residual of [apply_nonlinear].  The residual is
    affine in each input, and for a perturbation of the circulations, of
    [rhs] or of [mtx] (the other two inputs kept) the change of every
    residual is the product of the matching sub-Jacobian, read through its
    declared rows and columns, with the perturbation. *)
Theorem partials_are_derivatives (self self1 : t) (J0 : partials) (n : nat)
        (mtx dmtx : matrix) (rhs circulations d : vec) :
  setup self = (self1, Ok J0) ->
  system_size self1 = Z.of_nat n ->
  square n mtx -> square n dmtx ->
  length rhs = n -> length circulations = n -> length d = n ->
  exists J : partials,
    snd (linearize self1 mtx circulations J0) = Ok J /\
    forall i : nat,
      (i < n)%nat ->
      nth i (apply_nonlinear mtx rhs (vadd circulations d)) 0 =
        nth i (apply_nonlinear mtx rhs circulations) 0 + jvp (circulations_circulations J) n d i /\
      nth i (apply_nonlinear mtx (vadd rhs d) circulations) 0 =
        nth i (apply_nonlinear mtx rhs circulations) 0 + jvp (circulations_rhs J) n d i /\
      nth i (apply_nonlinear (map2 vadd mtx dmtx) rhs circulations) 0 =
        nth i (apply_nonlinear mtx rhs circulations) 0 +
        jvp (circulations_mtx J) (n * n) (flatten dmtx) i.
Proof.
  intros Hsetup Hn HM HE Hb HG Hd.
  rewrite (linearize_after_setup self self1 J0 n mtx circulations Hsetup Hn HM).
  eexists; split; [reflexivity|].
  intros i Hi. destruct HM as [HML HMF], HE as [HEL HEF].
  assert (Hrow : length (nth i mtx []) = n).
  { rewrite Forall_forall in HMF. apply HMF, nth_In. lia. }
  assert (Hrow' : length (nth i dmtx []) = n).
  { rewrite Forall_forall in HEF. apply HEF, nth_In. lia. }
  unfold jvp, entry.
  cbn [circulations_circulations circulations_mtx circulations_rhs rows cols val].
  assert (Hi' : (i < length mtx)%nat) by (rewrite HML; exact Hi).
  assert (Hi'' : (i < length dmtx)%nat) by (rewrite HEL; exact Hi).
  assert (HL2 : length (map2 vadd mtx dmtx) = length mtx)
    by (apply map2_length; etransitivity; [exact HML | symmetry; exact HEL]).
  assert (HL3 : length (vadd rhs d) = length mtx).
  { unfold vadd. rewrite map2_length by congruence.
    etransitivity; [exact Hb | symmetry; exact HML]. }
  assert (HL4 : length rhs = length mtx)
    by (etransitivity; [exact Hb | symmetry; exact HML]).
  rewrite !(residual_nth mtx) by assumption.
  assert (HL5 : length rhs = length (map2 vadd mtx dmtx))
    by (etransitivity; [exact HL4 | symmetry; exact HL2]).
  assert (Hi2 : (i < length (map2 vadd mtx dmtx))%nat).
  { eapply Nat.lt_le_trans; [exact Hi'|]. apply Nat.eq_le_incl. symmetry. exact HL2. }
  rewrite residual_nth by assumption.
  repeat split.
  - rewrite dot_vadd_r by lia.
    rewrite (sumR_map_ext _ (fun j => nth j (nth i mtx []) 0 * nth j d 0)).
    + pose proof (sum_nth_dot (nth i mtx []) d (eq_trans Hrow (eq_sym Hd))) as S1.
      rewrite Hrow in S1. rewrite S1. ring.
    + intros j Hj. apply in_seq in Hj.
      rewrite (entry_of_blocks_cols n i j) by (auto; lia).
      rewrite Nat.sub_0_r. nat_cases.
  - unfold vadd. rewrite (TransferLoadsFacts.nth_map2 Rplus _ _ i 0 0 0)
      by (rewrite ?Hb, ?Hd; exact Hi).
    rewrite (sumR_map_ext _ (fun j => (if Nat.eqb i j then -1 else 0) * nth j d 0)).
    + rewrite sum_delta. nat_cases.
    + intros j Hj. rewrite entry_of_diag. apply in_seq in Hj. nat_cases.
  - rewrite (TransferLoadsFacts.nth_map2 vadd _ _ i [] [] [])
      by assumption.
    rewrite dot_vadd_l by (etransitivity; [exact Hrow | symmetry; exact Hrow']).
    rewrite (sumR_map_ext _
      (fun c => (if (Nat.leb (i * n) c && Nat.ltb c (i * n + n))%bool
                 then nth (c - i * n) (map (Rmult 1) circulations) 0 else 0) *
                nth c (concat dmtx) 0)).
    + rewrite (sum_window (i * n) n (n * n)
                 (fun k => nth k (map (Rmult 1) circulations) 0)
                 (fun c => nth c (concat dmtx) 0)) by nia.
      rewrite (sumR_map_ext _ (fun k => nth k (nth i dmtx []) 0 * nth k circulations 0)).
      * pose proof (sum_nth_dot (nth i dmtx []) circulations
                      (eq_trans Hrow' (eq_sym HG))) as S1.
        rewrite Hrow' in S1. rewrite S1. unfold vec, matrix in *. ring.
      * intros k Hk. apply in_seq in Hk.
        rewrite (nth_concat n k dmtx i) by (auto; lia).
        rewrite (nth_indep _ 0 (1 * 0)) by (rewrite length_map; lia).
        rewrite map_nth. ring.
    + intros c Hc. unfold flatten.
      rewrite (entry_of_blocks_flat n i c (map (Rmult 1) circulations))
        by (now rewrite length_map).
      nat_cases.
Qed.

Lemma partials_are_derivatives_witness :
  exists J : partials,
    snd (linearize solver mtx2 [1; 2] partials0) = Ok J /\
    forall i : nat,
      (i < 2)%nat ->
      nth i (apply_nonlinear mtx2 [5; 11] (vadd [1; 2] [1; 0])) 0 =
        nth i (apply_nonlinear mtx2 [5; 11] [1; 2]) 0 +
        jvp (circulations_circulations J) 2 [1; 0] i /\
      nth i (apply_nonlinear mtx2 (vadd [5; 11] [1; 0]) [1; 2]) 0 =
        nth i (apply_nonlinear mtx2 [5; 11] [1; 2]) 0 + jvp (circulations_rhs J) 2 [1; 0] i /\
      nth i (apply_nonlinear (map2 vadd mtx2 mtx2) [5; 11] [1; 2]) 0 =
        nth i (apply_nonlinear mtx2 [5; 11] [1; 2]) 0 +
        jvp (circulations_mtx J) (2 * 2) (flatten mtx2) i.
Proof.
  apply (partials_are_derivatives solver0 solver partials0 2 mtx2 mtx2 [5; 11] [1; 2] [1; 0]).
  - exact setup_solver0.
  - exact solver_system_size.
  - exact mtx2_square.
  - exact mtx2_square.
  - reflexivity.
  - reflexivity.
  - reflexivity.
Defined.

Lemma Forall_repeat {A : Type} (P : A -> Prop) (a : A) (n : nat) :
  P a -> Forall P (repeat a n).
Proof. intros H. induction n; simpl; auto. Qed.

Lemma seq_bound (s m : nat) : Forall (fun c => (c < s + m)%nat) (seq s m).
Proof. apply Forall_forall. intros c Hc. apply in_seq in Hc. lia. Qed.

(** X8.  The values that [linearize] assigns fit the patterns that [setup]
    declared: in each of the three sub-Jacobians the arrays of rows, columns
    and values have the same length, every row index is below
    [system_size], and every column index is below the number of entries of
    the input ([system_size], or [system_size ** 2] for [mtx]). *)
Theorem partials_well_formed (self self1 : t) (J0 : partials) (n : nat)
        (mtx : matrix) (circulations : vec) :
  setup self = (self1, Ok J0) ->
  system_size self1 = Z.of_nat n ->
  square n mtx -> length circulations = n ->
  exists J : partials,
    snd (linearize self1 mtx circulations J0) = Ok J /\
    well_formed n n (circulations_circulations J) /\
    well_formed n (n * n) (circulations_mtx J) /\
    well_formed n n (circulations_rhs J).
Proof.
  intros Hsetup Hn HM HG.
  rewrite (linearize_after_setup self self1 J0 n mtx circulations Hsetup Hn HM).
  eexists; split; [reflexivity|].
  destruct HM as [HML HMF].
  assert (Lr : length (concat (map (fun i => repeat i n) (seq 0 n))) = (n * n)%nat).
  { rewrite (length_concat_rows n), length_map, length_seq; auto.
    apply Forall_map, Forall_forall. intros i _. apply repeat_length. }
  assert (Lc : length (concat (repeat (seq 0 n) n)) = (n * n)%nat).
  { rewrite (length_concat_rows n), repeat_length; auto.
    apply Forall_repeat, length_seq. }
  assert (Lm : length (concat mtx) = (n * n)%nat).
  { rewrite (length_concat_rows n) by exact HMF. f_equal. exact HML. }
  assert (Lg : length (concat (repeat (map (Rmult 1) circulations) n)) = (n * n)%nat).
  { rewrite (length_concat_rows n), repeat_length; auto.
    apply Forall_repeat. now rewrite length_map. }
  assert (Br : Forall (fun r => (r < n)%nat) (concat (map (fun i => repeat i n) (seq 0 n)))).
  { apply Forall_concat, Forall_map, Forall_forall. intros i Hi. apply in_seq in Hi.
    apply Forall_repeat. lia. }
  unfold well_formed.
  cbn [circulations_circulations circulations_mtx circulations_rhs rows cols val].
  rewrite Lr, Lc, Lm, Lg, !length_seq, repeat_length.
  repeat split; auto.
  - apply Forall_concat, Forall_repeat. apply (seq_bound 0 n).
  - apply (seq_bound 0 (n * n)).
  - apply (seq_bound 0 n).
  - apply (seq_bound 0 n).
Qed.

Lemma partials_well_formed_witness :
  exists J : partials,
    snd (linearize solver mtx2 [1; 2] partials0) = Ok J /\
    well_formed 2 2 (circulations_circulations J) /\
    well_formed 2 (2 * 2) (circulations_mtx J) /\
    well_formed 2 2 (circulations_rhs J).
Proof.
  apply (partials_well_formed solver0 solver partials0 2 mtx2 [1; 2]).
  - exact setup_solver0.
  - exact solver_system_size.
  - exact mtx2_square.
  - reflexivity.
Defined.




End SolveMatrixDerivatives.

(** ** The deformed mesh, point by point *)

Module TransferDisplacementsMore.
Import Numpy NumpyFacts Mesh MeshFacts TransferDisplacements ClosedForms.
Import TransferDisplacementsFacts TransferLoadsFacts Scenario Derived.

Ltac len := unfold array3, array2, row6 in *; rewrite ?length_map; lia.

Lemma station_step_eq (d : row6) (s p : pt) :
  station_step d s p =
  add3 (add3 p (dot_mat3 s (transform (c0 (snd d)) (c1 (snd d)) (c2 (snd d))))) (fst d).
Proof. destruct d as [[dx dy dz] [rx ry rz]]. reflexivity. Qed.

Lemma ref_curve_length (w : R) (mesh : array3) (nx ny : nat) :
  has_shape nx ny mesh -> (1 <= nx)%nat ->
  length (add2 (smul2 (1 - w) (hd [] mesh)) (smul2 w (last mesh []))) = ny.
Proof.
  intros [HL HF] Hnx. rewrite Forall_forall in HF.
  assert (Hne : mesh <> []) by (destruct mesh; [simpl in HL; lia|discriminate]).
  apply add2_length; rewrite smul2_length; apply HF.
  - destruct mesh; [congruence|now left].
  - now apply last_In.
Qed.

Lemma def_mesh_of_shape (w : R) (mesh : array3) (disp : list row6) (nx ny : nat) :
  has_shape nx ny mesh -> (1 <= nx)%nat -> length disp = ny ->
  has_shape nx ny (def_mesh_of w mesh disp).
Proof.
  intros Hs Hnx Hd. pose proof (ref_curve_length w mesh nx ny Hs Hnx) as Href.
  destruct Hs as [HL HF]. unfold def_mesh_of.
  set (ref_curve := add2 _ _) in *. unfold add_arr. split.
  - rewrite map2_length; rewrite length_map; auto.
  - rewrite <- (map_id mesh) at 2. rewrite map2_map_map.
    apply Forall_map. revert HF. apply Forall_impl. intros row Hrow.
    apply add2_length; auto. apply map2_length_eq; auto.
    unfold sub2. apply map2_length_eq; auto.
Qed.

(** X10.  With arrays of the declared shapes (and at least one chordwise
    row) [TransferDisplacements.solve_nonlinear] returns a deformed mesh of
    the shape of the mesh. *)
Theorem deformed_mesh_shape (surface : Surface.t) (mesh : array3) (disp : list row6) :
  has_shape (Surface.num_x surface) (Surface.num_y surface) mesh ->
  (1 <= Surface.num_x surface)%nat ->
  length disp = Surface.num_y surface ->
  exists def_mesh : array3,
    solve_nonlinear (init surface) mesh disp = Ok def_mesh /\
    has_shape (Surface.num_x surface) (Surface.num_y surface) def_mesh.
Proof.
  intros Hs Hnx Hd. eexists. split.
  - apply (displacements_closed_form (init surface)); assumption.
  - cbn [TransferDisplacements.surface init]. now apply def_mesh_of_shape.
Qed.

Lemma deformed_mesh_shape_witness :
  exists def_mesh : array3,
    solve_nonlinear (init wing) flat_mesh (repeat (mk_pt 0 0 1, mk_pt 0.1 0 0) 3) = Ok def_mesh /\
    has_shape 2 3 def_mesh.
Proof.
  apply (deformed_mesh_shape wing flat_mesh (repeat (mk_pt 0 0 1, mk_pt 0.1 0 0) 3)).
  - exact flat_mesh_shape.
  - simpl; lia.
  - reflexivity.
Defined.

Lemma nth_smul2 (k : R) (row : array2) (j : nat) :
  (j < length row)%nat -> nth j (smul2 k row) zero3 = smul3 k (nth j row zero3).
Proof.
  intros H. unfold smul2.
  rewrite (nth_indep _ zero3 (smul3 k zero3)) by (now rewrite length_map).
  apply map_nth.
Qed.

(** A point of the closed form of the deformed mesh. *)
Lemma def_mesh_point (surface : Surface.t) (mesh : array3) (disp : list row6) (i j : nat) :
  has_shape (Surface.num_x surface) (Surface.num_y surface) mesh ->
  length disp = Surface.num_y surface ->
  (i < Surface.num_x surface)%nat -> (j < Surface.num_y surface)%nat ->
  let w := Surface.fem_origin surface in
  let p := nth j (nth i mesh []) zero3 in
  let ref := add3 (smul3 (1 - w) (nth j (hd [] mesh) zero3))
                  (smul3 w (nth j (last mesh []) zero3)) in
  let d := nth j disp (zero3, zero3) in
  let T := transform (c0 (snd d)) (c1 (snd d)) (c2 (snd d)) in
  nth j (nth i (def_mesh_of w mesh disp) []) zero3 =
  add3 (add3 (dot_mat3 (sub3 p ref) T) (fst d)) p.
Proof.
  intros Hs Hd Hi Hj. cbv zeta.
  assert (Hnx : (1 <= Surface.num_x surface)%nat) by lia.
  pose proof (ref_curve_length (Surface.fem_origin surface) mesh _ _ Hs Hnx) as Href.
  destruct Hs as [HL HF]. rewrite Forall_forall in HF.
  assert (Hne : mesh <> []) by (destruct mesh; [simpl in HL; lia|discriminate]).
  assert (Hrow : length (nth i mesh []) = Surface.num_y surface).
  { apply HF, nth_In. lia. }
  assert (Hfirst : length (hd [] mesh) = Surface.num_y surface).
  { apply HF. destruct mesh; [congruence|now left]. }
  assert (Hlast : length (last mesh []) = Surface.num_y surface).
  { apply HF. now apply last_In. }
  unfold def_mesh_of. set (ref_curve := add2 _ _) in *.
  unfold add_arr. unfold array3, array2, row6 in *.
  rewrite (nth_map2 add2 _ _ i [] [] []) by len.
  set (F := fun row => map2 (fun s d => station_step d s zero3) (sub2 row ref_curve) disp).
  rewrite (nth_indep _ [] (F [])) by len.
  rewrite (map_nth F). unfold F.
  assert (Hsub : length (sub2 (nth i mesh []) ref_curve) = Surface.num_y surface).
  { unfold sub2. apply map2_length_eq; auto. }
  unfold add2 at 1.
  rewrite (nth_map2 add3 _ _ j zero3 zero3 zero3).
  2:{ rewrite (map2_length_eq _ _ _ (Surface.num_y surface)); auto. }
  2:{ len. }
  rewrite (nth_map2 _ _ _ j zero3 (zero3, zero3) zero3) by len.
  unfold sub2. rewrite (nth_map2 sub3 _ _ j zero3 zero3 zero3) by len.
  unfold ref_curve, add2.
  rewrite (nth_map2 add3 _ _ j zero3 zero3 zero3) by (rewrite smul2_length; len).
  rewrite !nth_smul2 by len.
  rewrite station_step_eq. cbv zeta.
  apply pt_eq; cbn [add3 c0 c1 c2 zero3]; unfold array3, array2, row6 in *; ring.
Qed.

(** X11.  Every point of the deformed mesh, by itself: the point [(i, j)]
    is the point [p] of the mesh plus the translation of station [j] plus
    [(p - ref).dot(T)], where [ref] is the point of the reference curve at
    station [j] (the points of the first and of the last chordwise row
    weighted with [1 - fem_origin] and [fem_origin]) and [T] is the transform
    of the three angles of station [j].  Only row [j] of [disp] is read for
    station [j]. *)
Theorem deformed_point (surface : Surface.t) (mesh : array3) (disp : list row6) (i j : nat) :
  has_shape (Surface.num_x surface) (Surface.num_y surface) mesh ->
  length disp = Surface.num_y surface ->
  (i < Surface.num_x surface)%nat -> (j < Surface.num_y surface)%nat ->
  exists def_mesh : array3,
    solve_nonlinear (init surface) mesh disp = Ok def_mesh /\
    let w := Surface.fem_origin surface in
    let p := nth j (nth i mesh []) zero3 in
    let ref := add3 (smul3 (1 - w) (nth j (hd [] mesh) zero3))
                    (smul3 w (nth j (last mesh []) zero3)) in
    let d := nth j disp (zero3, zero3) in
    let T := transform (c0 (snd d)) (c1 (snd d)) (c2 (snd d)) in
    nth j (nth i def_mesh []) zero3 = add3 (add3 (dot_mat3 (sub3 p ref) T) (fst d)) p.
Proof.
  intros Hs Hd Hi Hj. eexists. split.
  - apply (displacements_closed_form (init surface)); [assumption | cbn [nx init]; lia | assumption].
  - cbn [TransferDisplacements.surface init]. now apply def_mesh_point.
Qed.

Lemma deformed_point_witness :
  exists def_mesh : array3,
    solve_nonlinear (init wing) flat_mesh (repeat (mk_pt 0 0 1, mk_pt 0.1 0 0) 3) = Ok def_mesh /\
    let w := Surface.fem_origin wing in
    let p := nth 2 (nth 1 flat_mesh []) zero3 in
    let ref := add3 (smul3 (1 - w) (nth 2 (hd [] flat_mesh) zero3))
                    (smul3 w (nth 2 (last flat_mesh []) zero3)) in
    let d := nth 2 (repeat (mk_pt 0 0 1, mk_pt 0.1 0 0) 3) (zero3, zero3) in
    let T := transform (c0 (snd d)) (c1 (snd d)) (c2 (snd d)) in
    nth 2 (nth 1 def_mesh []) zero3 = add3 (add3 (dot_mat3 (sub3 p ref) T) (fst d)) p.
Proof.
  apply (deformed_point wing flat_mesh (repeat (mk_pt 0 0 1, mk_pt 0.1 0 0) 3) 1 2).
  - exact flat_mesh_shape.
  - reflexivity.
  - simpl; lia.
  - simpl; lia.
Defined.









Lemma axis_row (first last : array2) :
  forall disp : list row6,
    length last = length first -> length disp = length first ->
    add2 (map2 (fun s d => station_step d s zero3)
               (sub2 first (add2 (smul2 (1 - 0) first) (smul2 0 last))) disp) first =
    map2 (fun p d => add3 p (fst d)) first disp.
Proof.
  unfold add2, sub2, smul2. revert last; induction first as [|a first IH];
    intros [|b last] [|d disp] HL HD; simpl in *; try discriminate; auto.
  f_equal; [|apply IH; congruence].
  rewrite station_step_eq.
  generalize (transform (c0 (snd d)) (c1 (snd d)) (c2 (snd d))) as T. intros T.
  apply pt_eq; cbn [add3 sub3 smul3 dot_mat3 zero3 c0 c1 c2]; ring.
Qed.

(** X13.  With [fem_origin = 0] the first chordwise row is the reference
    curve: its points are moved by the translations of their stations only,
    whatever the rotation angles. *)
Theorem axis_row_only_translates (surface : Surface.t) (mesh : array3) (disp : list row6) :
  Surface.fem_origin surface = 0 ->
  has_shape (Surface.num_x surface) (Surface.num_y surface) mesh ->
  (1 <= Surface.num_x surface)%nat ->
  length disp = Surface.num_y surface ->
  exists def_mesh : array3,
    solve_nonlinear (init surface) mesh disp = Ok def_mesh /\
    hd [] def_mesh = map2 (fun p d => add3 p (fst d)) (hd [] mesh) disp.
Proof.
  intros Hw Hs Hnx Hd. eexists. split.
  { apply (displacements_closed_form (init surface)); assumption. }
  cbn [TransferDisplacements.surface init]. rewrite Hw.
  destruct Hs as [HL HF]. rewrite Forall_forall in HF.
  assert (Hne : mesh <> []) by (destruct mesh; [simpl in HL; lia|discriminate]).
  assert (Hlast : length (last mesh []) = Surface.num_y surface).
  { apply HF. now apply last_In. }
  destruct mesh as [|first rest]; [congruence|].
  assert (Hfirst : length first = Surface.num_y surface) by (apply HF; now left).
  unfold def_mesh_of. cbn [hd map add_arr map2].
  apply axis_row; congruence.
Qed.

Lemma axis_row_only_translates_witness :
  exists def_mesh : array3,
    solve_nonlinear (init (Surface.mk "wing" 2 3 0)) flat_mesh
                    (repeat (mk_pt 0 0 1, mk_pt 0.1 0.2 0.3) 3) = Ok def_mesh /\
    hd [] def_mesh =
    map2 (fun p d => add3 p (fst d)) (hd [] flat_mesh) (repeat (mk_pt 0 0 1, mk_pt 0.1 0.2 0.3) 3).
Proof.
  apply (axis_row_only_translates (Surface.mk "wing" 2 3 0) flat_mesh
           (repeat (mk_pt 0 0 1, mk_pt 0.1 0.2 0.3) 3)).
  - reflexivity.
  - exact flat_mesh_shape.
  - simpl; lia.
  - reflexivity.
Defined.

Lemma raises_only_bind {A B : Type} (e : string) (r : result A) (k : A -> result B) :
  raises_only e r -> (forall a, raises_only e (k a)) -> raises_only e (bind r k).
Proof. destruct r as [a|e']; simpl; intros H Hk; [apply Hk | exact H]. Qed.

Lemma index_raises {A : Type} (l : list A) (i : nat) : raises_only "IndexError" (index l i).
Proof. unfold index. destruct (nth_error l i); simpl; auto. Qed.

Lemma station_raises (A : array3) (j : nat) : raises_only "IndexError" (station A j).
Proof.
  induction A as [|row A IH]; simpl; auto.
  apply raises_only_bind; [apply index_raises|]. intros p.
  apply raises_only_bind; [exact IH|]. intros c. exact I.
Qed.

Lemma station_iadd_raises (A : array3) (j : nat) (c : array2) :
  raises_only "IndexError" (station_iadd A j c).
Proof.
  unfold station_iadd. apply raises_only_bind; [apply station_raises|]. intros; exact I.
Qed.

Lemma station_update_raises (A : array3) (j : nat) (f : pt -> pt) :
  raises_only "IndexError" (station_update A j f).
Proof.
  unfold station_update. apply raises_only_bind; [apply station_raises|]. intros; exact I.
Qed.

(** A loop one of whose rounds raises [e] whatever the state, and whose
    rounds raise nothing else, raises [e]. *)
Lemma for_in_raises {St : Type} (body : nat -> St -> result St) (e : string) (m : nat) :
  (forall s, body m s = Raise e) ->
  (forall i s, raises_only e (body i s)) ->
  forall (l : list nat) (s : St), In m l -> for_in l body s = Raise e.
Proof.
  intros Hm Hall. induction l as [|i l IH]; intros s Hin; [destruct Hin|].
  simpl. destruct Hin as [->|Hin].
  - now rewrite Hm.
  - specialize (Hall i s). destruct (body i s) as [s'|e']; simpl in *.
    + now apply IH.
    + now subst.
Qed.

(** X14.  [TransferDisplacements.solve_nonlinear] raises [IndexError] on an
    empty mesh ([num_x = 0]) and when [disp] has fewer rows than the mesh
    has spanwise stations. *)
Theorem missing_rows_rejected (surface : Surface.t) (mesh : array3) (disp : list row6) :
  has_shape (Surface.num_x surface) (Surface.num_y surface) mesh ->
  Surface.num_x surface = 0%nat \/ (length disp < Surface.num_y surface)%nat ->
  solve_nonlinear (init surface) mesh disp = Raise "IndexError".
Proof.
  intros [HL HF] Hbad. unfold solve_nonlinear.
  destruct (Nat.eq_dec (Surface.num_x surface) 0) as [E0|Hnx].
  { rewrite E0 in HL. destruct mesh; [reflexivity|discriminate]. }
  destruct Hbad as [E0|Hd]; [congruence|].
  assert (Hne : mesh <> []) by (destruct mesh; [simpl in HL; lia|discriminate]).
  rewrite (index_lt mesh 0 []) by lia. cbn [bind].
  rewrite (index_last_nonempty mesh [] Hne). cbn [bind].
  cbn [nx ny init]. rewrite <- HL.
  rewrite for_in_fill by (unfold zeros_like; now rewrite length_map).
  cbn [bind].
  rewrite (for_in_raises _ "IndexError" (length disp)); auto.
  - intros s. unfold index.
    replace (nth_error disp (length disp)) with (@None row6); [reflexivity|].
    symmetry. apply nth_error_None. lia.
  - intros i s.
    apply raises_only_bind; [apply index_raises|]. intros [[dx dy dz] [rx ry rz]].
    apply raises_only_bind; [apply station_raises|]. intros S.
    apply raises_only_bind; [apply station_iadd_raises|]. intros s1.
    apply raises_only_bind; [apply station_update_raises|]. intros s2.
    apply raises_only_bind; [apply station_update_raises|]. intros s3.
    apply station_update_raises.
  - apply in_seq. lia.
Qed.

Lemma missing_rows_rejected_witness :
  solve_nonlinear (init wing) flat_mesh (repeat (mk_pt 0 0 1, mk_pt 0 0 0) 2) = Raise "IndexError".
Proof.
  apply (missing_rows_rejected wing flat_mesh (repeat (mk_pt 0 0 1, mk_pt 0 0 0) 2)).
  - exact flat_mesh_shape.
  - right. simpl; lia.
Defined.

(** ** Rotation about a single axis *)







End TransferDisplacementsMore.

(** ** The loads, node by node *)

Module TransferLoadsMore.
Import Numpy NumpyFacts Mesh MeshFacts TransferLoads ClosedForms.
Import TransferDisplacementsFacts TransferLoadsFacts TransferLoadsSpec TransferSpec.
Import Scenario Derived.

(** ** From panels to nodes *)

Section Spread.
Variable g : row6 -> pt -> row6.
Variable proj : row6 -> pt.
Hypothesis proj_g : forall (a : row6) (v : pt), proj (g a v) = add3 (proj a) v.

Lemma spread_tail :
  forall (F : array2) (p : pt) (l : list row6),
    length l = S (length F) -> Forall (fun r => proj r = zero3) l ->
    map proj (map2 g (iadd_but_last g l (smul2 0.5 F)) (smul2 0.5 (p :: F))) =
    map2 (fun a b => smul3 0.5 (add3 a b)) (p :: F) (F ++ [zero3]).
Proof.
  induction F as [|f F IH]; intros p l HL HZ.
  - destruct l as [|a [|b l]]; try discriminate.
    apply Forall_cons_iff in HZ as [Ha _].
    cbn [smul2 map]. rewrite iadd_but_last_single. cbn [map2 map app].
    rewrite proj_g, Ha. f_equal. apply pt_eq; cbn [add3 smul3 zero3 c0 c1 c2]; ring.
  - destruct l as [|a l]; try discriminate.
    apply Forall_cons_iff in HZ as [Ha HZ].
    assert (Hne : l <> []) by (destruct l; [simpl in HL; discriminate | discriminate]).
    change (smul2 0.5 (f :: F)) with (smul3 0.5 f :: smul2 0.5 F).
    rewrite iadd_but_last_cons by assumption.
    change (smul2 0.5 (p :: f :: F)) with (smul3 0.5 p :: smul2 0.5 (f :: F)).
    cbn [map2 map app]. rewrite !proj_g, Ha.
    f_equal.
    + apply pt_eq; cbn [add3 smul3 zero3 c0 c1 c2]; ring.
    + apply IH; auto.
Qed.

Lemma spread_nodes (F : array2) (l : list row6) :
  length l = S (length F) -> Forall (fun r => proj r = zero3) l ->
  map proj (iadd_from1 g (iadd_but_last g l (smul2 0.5 F)) (smul2 0.5 F)) = spread F.
Proof.
  intros HL HZ. unfold spread. destruct F as [|f F].
  - destruct l as [|a [|b l]]; try discriminate.
    apply Forall_cons_iff in HZ as [Ha _].
    cbn [smul2 map]. rewrite iadd_but_last_single, iadd_from1_cons. cbn [map2 map app].
    rewrite Ha. f_equal. apply pt_eq; cbn [add3 smul3 zero3 c0 c1 c2]; ring.
  - destruct l as [|a l]; try discriminate.
    apply Forall_cons_iff in HZ as [Ha HZ].
    assert (Hne : l <> []) by (destruct l; [simpl in HL; discriminate | discriminate]).
    change (smul2 0.5 (f :: F)) with (smul3 0.5 f :: smul2 0.5 F).
    rewrite iadd_but_last_cons by assumption. rewrite iadd_from1_cons.
    change (smul3 0.5 f :: smul2 0.5 F) with (smul2 0.5 (f :: F)).
    cbn [map2 map app]. rewrite proj_g, Ha.
    f_equal.
    + apply pt_eq; cbn [add3 smul3 zero3 c0 c1 c2]; ring.
    + apply spread_tail; auto.
Qed.

End Spread.




Lemma zeros_loads_fst (ny : nat) : Forall (fun r : row6 => fst r = zero3) (zeros_loads ny).
Proof.
  unfold zeros_loads. apply Forall_forall. intros r Hin. apply repeat_spec in Hin. now subst.
Qed.

Lemma forces_leave_moments (ny : nat) (v : array2) :
  Forall (fun r : row6 => snd r = zero3)
         (iadd_from1 add_force (iadd_but_last add_force (zeros_loads ny) v) v).
Proof.
  unfold iadd_from1, iadd_but_last, but_last, from1.
  assert (H0 : Forall (fun row : row6 => snd row = zero3) (zeros_loads ny)).
  { unfold zeros_loads.
    apply Forall_forall. intros row Hin. apply repeat_spec in Hin. now subst. }
  set (l0 := zeros_loads ny) in *.
  assert (H1 : Forall (fun row : row6 => snd row = zero3)
                 (map2 add_force (removelast l0) v ++ skipn (length l0 - 1) l0)).
  { apply Forall_app. split.
    - apply snd_map2_add_force. now apply Forall_removelast.
    - now apply Forall_skipn. }
  set (l1 := (map2 _ (removelast l0) _ ++ _)%list) in *.
  apply Forall_app. split.
  - now apply Forall_firstn.
  - apply snd_map2_add_force. destruct l1; auto. now inversion H1.
Qed.

(** The loads, node by node. *)
Lemma loads_of_nodes (ny : nat) (sec_forces moment : array2) :
  ny = S (length sec_forces) -> length moment = length sec_forces ->
  map fst (loads_of ny sec_forces moment) = spread sec_forces /\
  map snd (loads_of ny sec_forces moment) = spread moment.
Proof.
  intros Hny Hm. unfold loads_of.
  assert (L0 : length (zeros_loads ny) = S (length (smul2 0.5 sec_forces))).
  { unfold zeros_loads. rewrite repeat_length, smul2_length. exact Hny. }
  assert (L1 := iadd_but_last_length add_force _ _ L0).
  assert (L1' : length (iadd_but_last add_force (zeros_loads ny) (smul2 0.5 sec_forces))
                = S (length (smul2 0.5 sec_forces))) by congruence.
  assert (L2 := iadd_from1_length add_force _ _ L1').
  pose proof (forces_leave_moments ny (smul2 0.5 sec_forces)) as HZ.
  set (lf := iadd_from1 add_force _ _) in *.
  assert (L2' : length lf = S (length (smul2 0.5 moment))).
  { rewrite smul2_length, Hm, <- (smul2_length 0.5 sec_forces). congruence. }
  assert (L3 := iadd_but_last_length add_moment _ _ L2').
  assert (L3' : length (iadd_but_last add_moment lf (smul2 0.5 moment))
                = S (length (smul2 0.5 moment))) by congruence.
  split.
  - rewrite map_fst_iadd_from1_moment, map_fst_iadd_but_last_moment by assumption.
    unfold lf. apply (spread_nodes add_force fst).
    + reflexivity.
    + rewrite smul2_length in L0. exact L0.
    + apply zeros_loads_fst.
  - apply (spread_nodes add_moment snd).
    + reflexivity.
    + rewrite smul2_length in L2'. exact L2'.
    + exact HZ.
Qed.

(** ** The moment arm *)

Lemma moment_arm :
  forall (w : R) (a b c d F : array2),
    moment_of (add2 (add2 (add2 (smul2 (0.5 * (1 - 0.25)) a) (smul2 (0.5 * 0.25) b))
                          (smul2 (0.5 * (1 - 0.25)) c))
                    (smul2 (0.5 * 0.25) d))
              (add2 (add2 (add2 (smul2 (0.5 * (1 - w)) a) (smul2 (0.5 * w) b))
                          (smul2 (0.5 * (1 - w)) c))
                    (smul2 (0.5 * w) d))
              F =
    map2 (fun ch f => smul3 (0.25 - w) (cross ch f))
         (add2 (smul2 0.5 (sub2 b a)) (smul2 0.5 (sub2 d c))) F.
Proof.
  intros w. unfold moment_of, add2, sub2, smul2.
  induction a as [|pa a IH]; intros [|pb b] [|pc c] [|pd d] [|f F]; simpl; auto.
  f_equal; [|apply IH].
  apply pt_eq; cbn [add3 sub3 smul3 cross c0 c1 c2]; ring.
Qed.

Lemma panel_moments (w : R) (row0 row1 F : array2) :
  moment_of (panel_row 0.25 row0 row1) (panel_row w row0 row1) F =
  map2 (fun ch f => smul3 (0.25 - w) (cross ch f)) (panel_chord row0 row1) F.
Proof. unfold panel_row, panel_chord. apply moment_arm. Qed.

(** With arrays of the declared shapes, the loads node by node: the forces
    spread the sectional forces, the moments spread the panel moments. *)
Lemma solve_nonlinear_nodes (surface : Surface.t) (mesh sec_forces : array3) :
  has_shape (Surface.num_x surface) (Surface.num_y surface) mesh ->
  has_shape (Surface.num_x surface - 1) (Surface.num_y surface - 1) sec_forces ->
  (2 <= Surface.num_x surface)%nat -> (1 <= Surface.num_y surface)%nat ->
  exists loads : list row6,
    solve_nonlinear (init surface) mesh sec_forces = Ok loads /\
    length loads = Surface.num_y surface /\
    map fst loads = spread (sum_axis0 (Surface.num_y surface - 1) sec_forces) /\
    map snd loads =
      spread (map2 (fun ch f => smul3 (0.25 - Surface.fem_origin surface) (cross ch f))
                   (panel_chord (nth 0 mesh []) (nth 1 mesh []))
                   (sum_axis0 (Surface.num_y surface - 1) sec_forces)).
Proof.
  intros Hmesh [_ Hsf] Hnx Hny.
  destruct (has_shape_two_rows _ _ mesh Hmesh Hnx) as (row0 & row1 & rest & -> & H0 & H1).
  rewrite loads_closed_form by (cbn [init ny]; assumption).
  cbn [init ny fem_origin nth].
  set (F := sum_axis0 (Surface.num_y surface - 1) sec_forces).
  assert (HF : length F = (Surface.num_y surface - 1)%nat)
    by (apply sum_axis0_length; assumption).
  assert (HM : length (moment_of (panel_row 0.25 row0 row1)
                                 (panel_row (Surface.fem_origin surface) row0 row1) F)
               = length F).
  { unfold moment_of. rewrite HF. apply map2_length_eq; auto.
    apply map2_length_eq; apply panel_row_length; assumption. }
  assert (Hn : Surface.num_y surface = S (length F)) by lia.
  eexists. split; [reflexivity|].
  destruct (loads_of_nodes _ F _ Hn HM) as [Hf Hm].
  destruct (loads_of_total _ F _ Hn HM) as [HL _].
  repeat split; auto.
  now rewrite Hm, panel_moments.
Qed.

(** X16.  The forces of the loads, node by node: node [j] receives half of
    the (chordwise summed) sectional force of panel [j - 1] and half of that
    of panel [j]; the first and the last node have one panel only. *)
Theorem nodal_forces (surface : Surface.t) (mesh sec_forces : array3) :
  has_shape (Surface.num_x surface) (Surface.num_y surface) mesh ->
  has_shape (Surface.num_x surface - 1) (Surface.num_y surface - 1) sec_forces ->
  (2 <= Surface.num_x surface)%nat -> (1 <= Surface.num_y surface)%nat ->
  exists loads : list row6,
    solve_nonlinear (init surface) mesh sec_forces = Ok loads /\
    map fst loads = spread (sum_axis0 (Surface.num_y surface - 1) sec_forces).
Proof.
  intros Hmesh Hsf Hnx Hny.
  destruct (solve_nonlinear_nodes surface mesh sec_forces Hmesh Hsf Hnx Hny)
    as (loads & E & _ & Hf & _).
  exists loads. auto.
Qed.

Lemma nodal_forces_witness :
  exists loads : list row6,
    solve_nonlinear (init wing) flat_mesh unit_forces = Ok loads /\
    map fst loads = spread (sum_axis0 2 unit_forces).
Proof.
  apply (nodal_forces wing flat_mesh unit_forces).
  - exact flat_mesh_shape.
  - exact unit_forces_shape.
  - simpl; lia.
  - simpl; lia.
Defined.





(** ** Rigid translation of the mesh *)







(** ** The two components in sequence *)





(** ** Failures *)

(** X22.  [TransferLoads.solve_nonlinear] needs two chordwise rows: with a
    mesh of at most one row and at least two spanwise nodes the panel points
    are empty and the first round of the moment loop raises [IndexError]. *)
Theorem single_row_mesh_rejected (self : t) (mesh sec_forces : array3) :
  (length mesh <= 1)%nat -> (2 <= ny self)%nat ->
  solve_nonlinear self mesh sec_forces = Raise "IndexError".
Proof.
  intros Hm Hny. unfold solve_nonlinear.
  assert (Hp : forall w, panel_pts w mesh = []).
  { intros w. destruct mesh as [|row [|row' rest]]; [reflexivity|reflexivity|].
    simpl in Hm. lia. }
  rewrite !Hp. unfold zeros_rows.
  destruct (Nat.eqb_spec (ny self) 0) as [E|_]; [lia|]. cbn [bind].
  destruct (ny self - 1)%nat as [|k] eqn:Ek; [lia|].
  reflexivity.
Qed.

Lemma single_row_mesh_rejected_witness :
  solve_nonlinear (init wing) [[mk_pt 0 0 0; mk_pt 0 1 0; mk_pt 0 2 0]] unit_forces =
  Raise "IndexError".
Proof.
  apply (single_row_mesh_rejected (init wing) [[mk_pt 0 0 0; mk_pt 0 1 0; mk_pt 0 2 0]]
           unit_forces).
  - simpl; lia.
  - simpl; lia.
Defined.

End TransferLoadsMore.
